(** * NiallsCPP11Utilities: the 128/256-bit values, the random fill,
    the fast-hash combiner and the (batched) SHA-256 of Int128_256.cpp

  A shallow embedding of [Int128_256.cpp] (the hash and random-fill
  member functions of [Int128], [Int256], [Hash128], [Hash256]) and of
  the parts of the unit tests that state what these functions are
  expected to return.

  Conventions.
  - A buffer [(const char *data, size_t length)] is the [list byte] of
    its [length] bytes; a [size_t] is a [Z] in [[0, 2^64)] and every
    operation that can wrap has its [mod 2^64] written out.
  - The storage of a value is its bytes in address order.  [asInts()]
    and [asLongLongs()] overlay the same storage with native words; the
    host byte order is a parameter ([endianness]).
  - The class declarations ([Int128_256.hpp]) and the third-party hash
    sources ([hashes/...]) are not part of the sources at hand.  What
    is needed of them is either a section variable or a definition
    whose comment starts with "Modelled from the spec". *)

From Stdlib Require Import ZArith List Lia String Ascii Bool.
From coqutil Require Import Byte Word.LittleEndianList.
From stdpp Require Import base list.

Local Open Scope Z_scope.

(** ** Machine integers *)

Definition size_max : Z := 2 ^ 64 - 1.

(** Reduction of an integer expression to [size_t]. *)
Definition to_size_t (z : Z) : Z := z mod 2 ^ 64.

(** Reduction of an integer expression to [unsigned int] (32 bits). *)
Definition to_uint32 (z : Z) : Z := z mod 2 ^ 32.

(** Native byte order of the host. *)
Inductive endianness := LittleEndian | BigEndian.

(** ** Fixed-width values *)

Module FixedWidth.

(** The storage of an [Int128] / [Int256]: 16 or 32 bytes, in address
    order. *)
Definition value := list byte.

Definition sized (nbytes : nat) (v : value) : Prop := length v = nbytes.

(** Modelled from the spec: the default constructor of [Int128] and
    [Int256] ([Int128_256.hpp] is missing); "default construction
    yields the all-zero value (null)". *)
Definition null (nbytes : nat) : value := replicate nbytes Byte.x00.

(** The stored bytes read as one unsigned integer, the first stored
    byte being the most significant one. *)
Fixpoint be_value (v : value) : Z :=
  match v with
  | [] => 0
  | b :: t => byte.unsigned b * 2 ^ (8 * Z.of_nat (length t)) + be_value t
  end.

(** Modelled from the spec: the comparison operators of [Int128] and
    [Int256] ([Int128_256.hpp] is missing); "unsigned big-endian
    numeric comparison over the stored bytes; ==/!= follow from
    equality of all bytes". *)
Definition compare (a b : value) : comparison :=
  Z.compare (be_value a) (be_value b).

Definition ltb (a b : value) : bool :=
  match compare a b with Lt => true | _ => false end.

Definition gtb (a b : value) : bool :=
  match compare a b with Gt => true | _ => false end.

Fixpoint eqb (a b : value) : bool :=
  match a, b with
  | [], [] => true
  | x :: a', y :: b' => Byte.eqb x y && eqb a' b'
  | _, _ => false
  end.

Definition neqb (a b : value) : bool := negb (eqb a b).
Definition leb (a b : value) : bool := negb (gtb a b).
Definition geb (a b : value) : bool := negb (ltb a b).

(** [memcmp(a, b, n)] of the C library, as the tests call it: the
    first [n] bytes are compared as [unsigned char]; the sign of the
    result is the sign of the difference of the first two bytes that
    differ. *)
Fixpoint memcmp (a b : value) (n : nat) : Z :=
  match n, a, b with
  | S n', x :: a', y :: b' =>
      if byte.unsigned x =? byte.unsigned y
      then memcmp a' b' n'
      else byte.unsigned x - byte.unsigned y
  | _, _, _ => 0
  end.

(** Exactly one of three tests holds. *)
Definition exactly_one (p q r : bool) : Prop :=
  (p = true /\ q = false /\ r = false) \/
  (p = false /\ q = true /\ r = false) \/
  (p = false /\ q = false /\ r = true).

Definition hex_digit (n : Z) : ascii :=
  nth (Z.to_nat n) (list_ascii_of_string "0123456789abcdef") "0"%char.

Definition hex_byte (b : byte) : string :=
  String (hex_digit (byte.unsigned b / 16))
    (String (hex_digit (byte.unsigned b mod 16)) EmptyString).

(** Modelled from the spec: [asHexString()] ([Int128_256.hpp] is
    missing); "lower-case hexadecimal rendering of the stored bytes,
    most-significant byte first, fixed length (32 hex chars for
    128-bit, 64 for 256-bit)". *)
Fixpoint asHexString (v : value) : string :=
  match v with
  | [] => EmptyString
  | b :: t => String.append (hex_byte b) (asHexString t)
  end.

(** [asInts()] and [asLongLongs()]: the storage seen as native words
    of [wbytes] bytes each. *)
Definition load_word (e : endianness) (bs : list byte) : Z :=
  match e with
  | LittleEndian => le_combine bs
  | BigEndian => le_combine (rev bs)
  end.

Definition store_word (e : endianness) (wbytes : nat) (w : Z) : list byte :=
  match e with
  | LittleEndian => le_split wbytes w
  | BigEndian => rev (le_split wbytes w)
  end.

Fixpoint as_words (e : endianness) (wbytes : nat) (count : nat) (v : value)
  : list Z :=
  match count with
  | O => []
  | S c => load_word e (take wbytes v) :: as_words e wbytes c (drop wbytes v)
  end.

Definition of_words (e : endianness) (wbytes : nat) (ws : list Z) : value :=
  concat (map (store_word e wbytes) ws).

Definition asInts (e : endianness) (v : value) : list Z :=
  as_words e 4 (length v / 4)%nat v.

Definition asLongLongs (e : endianness) (v : value) : list Z :=
  as_words e 8 (length v / 8)%nat v.

(** The two values of the [Int128/works] test: [_hash1[5]=78] and
    [_hash2[15]=1] in otherwise zero buffers. *)
Definition test_hash1 : value := <[5%nat := byte.of_Z 78]> (null 16).
Definition test_hash2 : value := <[15%nat := byte.of_Z 1]> (null 16).

End FixedWidth.


(** ** Outcomes of a call *)

(** The ways a call ends without returning to its caller. *)
Inductive fault :=
| AbortCalled        (* [abort()] *)
| AssertionFailed    (* an [assert] of a debug build *)
| NullBlockPointer   (* NDEBUG: a null block handed to [__sha256_int] *)
| ReadPastArrays     (* a read behind the end of an argument array *)
| BufferOverrun.     (* a write behind the end of the destination *)

(** [OutOfFuel] is not an outcome of the program: it says that the
    bound given to a loop of the model was too small to decide. *)
Inductive run (A : Type) :=
| Returned (a : A)
| Stopped (f : fault)
| OutOfFuel.

Arguments Returned {A} a.
Arguments Stopped {A} f.
Arguments OutOfFuel {A}.

#[global] Instance run_ret : MRet run := @Returned.

#[global] Instance run_bind : MBind run := fun A B k r =>
  match r with
  | Returned a => k a
  | Stopped f => Stopped f
  | OutOfFuel => OutOfFuel
  end.

(** ** SHA-256 *)

Module SHA256.

Import FixedWidth.

(** [sizeof(__sha256_block_t)] *)
Definition block_size : Z := 64.

(** *** The compression function *)

Definition rotr (n x : Z) : Z :=
  Z.lor (Z.shiftr x n) (to_uint32 (Z.shiftl x (32 - n))).

Definition Ch (x y z : Z) : Z :=
  Z.lxor (Z.land x y) (Z.land (Z.lxor x 0xffffffff) z).

Definition Maj (x y z : Z) : Z :=
  Z.lxor (Z.lxor (Z.land x y) (Z.land x z)) (Z.land y z).

Definition Sigma0 (x : Z) : Z := Z.lxor (Z.lxor (rotr 2 x) (rotr 13 x)) (rotr 22 x).
Definition Sigma1 (x : Z) : Z := Z.lxor (Z.lxor (rotr 6 x) (rotr 11 x)) (rotr 25 x).
Definition sigma0 (x : Z) : Z := Z.lxor (Z.lxor (rotr 7 x) (rotr 18 x)) (Z.shiftr x 3).
Definition sigma1 (x : Z) : Z := Z.lxor (Z.lxor (rotr 17 x) (rotr 19 x)) (Z.shiftr x 10).

(** FIPS 180-4 gives its constants by what they are: the first 32 bits
    of the fractional parts of the cube roots (4.2.2) and of the square
    roots (5.3.3) of the first primes.  [int_root k bits n r] adds to
    [r], from bit [bits-1] down, every bit that keeps its [k]-th power
    within [n]. *)
Fixpoint int_root (k : Z) (bits : nat) (n r : Z) : Z :=
  match bits with
  | O => r
  | S b =>
      let r' := r + 2 ^ Z.of_nat b in
      if r' ^ k <=? n then int_root k b n r' else int_root k b n r
  end.

Definition frac_root (k p : Z) : Z :=
  to_uint32 (int_root k 40 (p * 2 ^ (32 * k)) 0).

Definition is_prime (n : Z) : bool :=
  forallb (fun d => negb (n mod Z.of_nat d =? 0)) (seq 2 (Z.to_nat n - 2)).

Definition first_primes (count : nat) : list Z :=
  take count (filter (fun n => is_prime n = true) (Z.of_nat <$> seq 2 310)).

Definition K256 : list Z :=
  Eval vm_compute in frac_root 3 <$> first_primes 64.

(** The initial hash value H(0) of FIPS 180-4. *)
Definition initial_hash : list Z :=
  Eval vm_compute in frac_root 2 <$> first_primes 8.

(** The sixteen big-endian message words of a block. *)
Definition block_words (blk : list byte) : list Z :=
  as_words BigEndian 4 16 blk.

(** The message schedule, most recent word first: [sched] holds
    W(t-1), W(t-2), ..., and [n] more words are appended. *)
Fixpoint schedule (n : nat) (sched : list Z) : list Z :=
  match n with
  | O => sched
  | S n' =>
      let w := to_uint32 (sigma1 (nth 1 sched 0) + nth 6 sched 0
                          + sigma0 (nth 14 sched 0) + nth 15 sched 0) in
      schedule n' (w :: sched)
  end.

Definition working := (Z * Z * Z * Z * Z * Z * Z * Z)%type.

Definition round (v : working) (kw : Z * Z) : working :=
  let '(a, b, c, d, e, f, g, h) := v in
  let T1 := h + Sigma1 e + Ch e f g + fst kw + snd kw in
  let T2 := Sigma0 a + Maj a b c in
  (to_uint32 (T1 + T2), a, b, c, to_uint32 (d + T1), e, f, g).

(** Modelled from the spec: [__sha256_osol] ([hashes/sha256/sha256-ref.c]
    is missing); "the core SHA-256 step that folds one 64-byte block
    into the running 256-bit state", "per the published FIPS
    specification".  [H] is the state as eight 32-bit words. *)
Definition sha256_compress (blk : list byte) (H : list Z) : list Z :=
  let W := rev (schedule 48 (rev (block_words blk))) in
  let h i := nth i H 0 in
  let '(a, b, c, d, e, f, g, hh) :=
    fold_left round (combine K256 W)
      (h 0%nat, h 1%nat, h 2%nat, h 3%nat, h 4%nat, h 5%nat, h 6%nat, h 7%nat) in
  map to_uint32
    [h 0%nat + a; h 1%nat + b; h 2%nat + c; h 3%nat + d;
     h 4%nat + e; h 5%nat + f; h 6%nat + g; h 7%nat + hh].

(** Modelled from the spec: [__sha256_int] ([hashes/sha256/sha256-sse.c]
    is missing); "one 4-wide interleaved compression step that advances
    all 4 lanes' running state by one block each". *)
Definition sha256_int_model (blocks : list (list byte)) (states : list (list Z))
  : list (list Z) :=
  zip_with sha256_compress blocks states.

(** *** [Hash256::AddSHA256To] *)

(** [memset(temp, 0, sizeof(temp)); memcpy(temp, src, n);] *)
Definition zeroed_block : list byte := replicate (Z.to_nat block_size) Byte.x00.

Definition memcpy (dst src : list byte) (n : Z) : list byte :=
  take (Z.to_nat n) src ++ drop (Z.to_nat n) dst.

(** The control flow of [AddSHA256To] does not look at the hash: it is
    written once for any state [St] and any action [step] standing for
    the call [__sha256_osol(block, asInts())]. *)
Section Blocks.

Context {St : Type}.
Variable step : list byte -> St -> St.

(** The loop [for(size_t n=0; n<no; n++)] of lines 160-161, which hands
    the block at [blks] to [__sha256_osol] and moves [blks] on; [blks]
    is what lies from the block pointer on. *)
Fixpoint osol_blocks (no : nat) (blks : list byte) (h : St) : list byte * St :=
  match no with
  | O => (blks, h)
  | S no' =>
      osol_blocks no' (drop (Z.to_nat block_size) blks)
        (step (take (Z.to_nat block_size) blks) h)
  end.

Definition AddSHA256To_with (h : St) (data : list byte) : St :=
  let length := Z.of_nat (List.length data) in
  let no := length / block_size in
  let remaining := length - no * block_size in
  let '(blks, h1) := osol_blocks (Z.to_nat no) data h in
  if remaining =? 0 then h1
  else
    let temp := memcpy zeroed_block blks remaining in
    step temp h1.

End Blocks.

(** The blocks [AddSHA256To] hands to [__sha256_osol], in order. *)
Definition blocks_compressed (data : list byte) : list (list byte) :=
  AddSHA256To_with (fun blk trace => trace ++ [blk]) [] data.

(** *** [Hash256::BatchAddSHA256To] *)

Section WithCompression.

(** Host byte order, [__sha256_osol(blk, hash)] and
    [__sha256_int(blks, out)] on states of eight words; the latter takes
    four blocks and four states and gives the four new states. *)
Variable host : endianness.
Variable __sha256_osol : list byte -> list Z -> list Z.
Variable __sha256_int : list (list byte) -> list (list Z) -> list (list Z).

(** [__sha256_osol(blk, const_cast<unsigned int *>(h.asInts()))]: the
    state is updated in the storage of [h]. *)
Definition osol_into (blk : list byte) (h : value) : value :=
  of_words host 4 (__sha256_osol blk (asInts host h)).

Definition AddSHA256To (h : value) (data : list byte) : value :=
  AddSHA256To_with osol_into h data.

(** The locals and the advancing argument pointers of
    [BatchAddSHA256To].  [None] in [blks] and [out] is the null pointer.
    [data] is what is left of the arrays [data] and [length] (the length
    of a message is the length of its list), [hashs_next] the index the
    pointer [hashs] has reached in the array [hashs_mem]. *)
Record streams := mk_streams {
  blks : list (option (list byte));
  lengths : list Z;
  out : list (option nat);
  tobefinished : list (option nat * list byte * Z);
  done : bool;
  no : Z;
  data : list (list byte);
  hashs_next : nat;
  hashs_mem : list value
}.

Definition is_null {A : Type} (p : option (option A)) : bool :=
  match p with
  | Some (Some _) => false
  | _ => true
  end.

(** Lines 184-194: an empty stream takes the next message.  The second
    component says whether the [for] loop is left by [break]. *)
Definition load_stream (n : nat) (s : streams) : run (streams * bool) :=
  if is_null (blks s !! n) && negb (no s =? 0) then
    match data s with
    | d :: rest =>
        let no' := to_size_t (no s - 1) in
        let s' := {| blks := <[n := Some d]> (blks s);
                     lengths := <[n := Z.of_nat (List.length d)]> (lengths s);
                     out := <[n := Some (hashs_next s)]> (out s);
                     tobefinished := tobefinished s;
                     done := (no' =? size_max) || done s;
                     no := no';
                     data := rest;
                     hashs_next := S (hashs_next s);
                     hashs_mem := hashs_mem s |} in
        Returned (s', no' =? size_max)
    | [] => Stopped ReadPastArrays
    end
  else Returned (s, false).

(** Lines 196-202: a stream with less than a block left is retired. *)
Definition retire_stream (n : nat) (s : streams) : streams :=
  match blks s !! n, lengths s !! n with
  | Some (Some b), Some l =>
      if l <? block_size then
        {| blks := <[n := None]> (blks s);
           lengths := lengths s;
           out := out s;
           tobefinished :=
             if l =? 0 then tobefinished s
             else tobefinished s ++ [(default None (out s !! n), b, l)];
           done := done s;
           no := no s;
           data := data s;
           hashs_next := hashs_next s;
           hashs_mem := hashs_mem s |}
      else s
  | _, _ => s
  end.

(** The loop [for(size_t n=0; n<4; n++)] of lines 182-203 over the
    indices [ns] still to visit. *)
Fixpoint fill_streams (ns : list nat) (s : streams) : run streams :=
  match ns with
  | [] => Returned s
  | n :: ns' =>
      '(s', brk) ← load_stream n s;
      if brk : bool then Returned s'
      else fill_streams ns' (retire_stream n s')
  end.

Definition stream_indices : list nat := [0; 1; 2; 3]%nat.

(** Lines 206-210, the assertions of a debug build. *)
Definition stream_ready (s : streams) (n : nat) : bool :=
  negb (is_null (blks s !! n)) &&
  match lengths s !! n with
  | Some l => block_size <=? l
  | None => false
  end.

(** Line 212, [__sha256_int(blks, out)]: one block of each stream is
    folded into the state its [out] entry points to. *)
Definition sha256_int_step (s : streams) : list value :=
  let blocks :=
    map (fun n => take (Z.to_nat block_size)
                    (default [] (default None (blks s !! n)))) stream_indices in
  let dests := map (fun n => default None (out s !! n)) stream_indices in
  let states :=
    map (fun d => match d with
                  | Some i => asInts host (default [] (hashs_mem s !! i))
                  | None => []
                  end) dests in
  let states' := __sha256_int blocks states in
  fold_left
    (fun mem ds => match fst ds with
                   | Some i => <[i := of_words host 4 (snd ds)]> mem
                   | None => mem
                   end)
    (combine dests states') (hashs_mem s).

(** Lines 213-217: every stream moves on by one block. *)
Definition advance_streams (s : streams) (mem : list value) : streams :=
  {| blks := fmap (M := option) (drop (Z.to_nat block_size)) <$> blks s;
     lengths := (fun l => to_size_t (l - block_size)) <$> lengths s;
     out := out s;
     tobefinished := tobefinished s;
     done := done s;
     no := no s;
     data := data s;
     hashs_next := hashs_next s;
     hashs_mem := mem |}.

(** One turn of the [while(!done)] loop after its test.  The result is
    the state after the turn and whether the loop was left by the
    [break] of line 204. *)
Definition batch_turn (ndebug : bool) (s : streams) : run (streams * bool) :=
  s1 ← fill_streams stream_indices s;
  if done s1 then Returned (s1, true)
  else if ndebug then
    if forallb (fun n => negb (is_null (blks s1 !! n))) stream_indices
    then Returned (advance_streams s1 (sha256_int_step s1), false)
    else Stopped NullBlockPointer
  else
    if forallb (stream_ready s1) stream_indices
    then Returned (advance_streams s1 (sha256_int_step s1), false)
    else Stopped AssertionFailed.

(** The loop [while(!done)], given at most [fuel] turns. *)
Fixpoint batch_while (ndebug : bool) (fuel : nat) (s : streams) : run streams :=
  if done s then Returned s
  else
    match fuel with
    | O => OutOfFuel
    | S fuel' =>
        '(s', brk) ← batch_turn ndebug s;
        if brk : bool then Returned s'
        else batch_while ndebug fuel' s'
    end.

(** Lines 219-225: the tail of a retired message is copied into a
    zeroed block and folded into its hash. *)
Definition finish_one (mem : list value) (i : option nat * list byte * Z)
  : list value :=
  let '(dest, tail, len) := i in
  let temp := memcpy zeroed_block tail len in
  match dest with
  | Some k =>
      match mem !! k with
      | Some h => <[k := osol_into temp h]> mem
      | None => mem
      end
  | None => mem
  end.

Definition initial_streams (no : Z) (hashs : list value)
  (data : list (list byte)) : streams :=
  {| blks := replicate 4 None;
     lengths := replicate 4 0;
     out := replicate 4 None;
     tobefinished := [];
     done := false;
     no := no;
     data := data;
     hashs_next := 0;
     hashs_mem := hashs |}.

(** [BatchAddSHA256To(no, hashs, data, length)]; the result is the
    array [hashs] on return.  Line 216 is read without its surplus
    closing parenthesis. *)
Definition BatchAddSHA256To (ndebug : bool) (fuel : nat) (no : Z)
  (hashs : list value) (data : list (list byte)) : run (list value) :=
  s ← batch_while ndebug fuel (initial_streams no hashs data);
  Returned (fold_left finish_one (tobefinished s) (hashs_mem s)).

End WithCompression.

(** What holds of the locals at every test of [while(!done)]: the loop
    has not been told to stop, [no] is a [size_t], and the three arrays
    have their four entries. *)
Definition streams_wf (s : streams) : Prop :=
  done s = false /\ 0 <= no s < 2 ^ 64 /\
  List.length (blks s) = 4%nat /\ List.length (lengths s) = 4%nat.

(** The argument arrays hold at least the [no] messages still to be
    taken. *)
Definition arrays_cover (s : streams) : Prop :=
  no s <= Z.of_nat (List.length (data s)).

(** A bound on the turns of the loop in terms of stream [n]: the whole
    blocks it has left, or those of the message it would take next. *)
Definition stream_turns (n : nat) (s : streams) : nat :=
  match blks s !! n with
  | Some (Some _) => Z.to_nat (default 0 (lengths s !! n) / block_size)
  | _ =>
      match data s with
      | d :: _ => Z.to_nat (Z.of_nat (List.length d) / block_size)
      | [] => 0%nat
      end
  end.

Definition turns_left (s : streams) : nat := stream_turns 0 s.

(** The whole blocks of a message. *)
Definition whole_blocks (b : list byte) : nat :=
  Z.to_nat (Z.of_nat (List.length b) / block_size).

(** The fault a turn of the loop ends with, by build. *)
Definition lane_fault (ndebug : bool) : fault :=
  if ndebug then NullBlockPointer else AssertionFailed.

(** The words of the specification of [hashOne]: the input cut into
    consecutive 64-byte blocks, the last one, when partial, filled up
    with zero bytes; nothing else is appended. *)
Fixpoint zero_padded_blocks (fuel : nat) (data : list byte) : list (list byte) :=
  match fuel, data with
  | _, [] => []
  | O, _ => []
  | S fuel', _ =>
      let blk := take 64 data in
      (blk ++ replicate (64 - List.length blk) Byte.x00)
        :: zero_padded_blocks fuel' (drop 64 data)
  end.

(** A block folded into a state, arguments in the order of a fold. *)
Definition feed {St : Type} (step : list byte -> St -> St)
  (st : St) (blk : list byte) : St := step blk st.

Definition hashOne_spec (compress : list byte -> value -> value)
  (h : value) (data : list byte) : value :=
  fold_left (feed compress)
    (zero_padded_blocks (List.length data) data) h.

(** The digest of FIPS 180-4, the values of the [SHA256/works] test
    being "taken from the FIPS test for SHA-256": the message is
    followed by the byte 0x80, zero bytes and its length in bits as a
    64-bit big-endian number, the state starts at [initial_hash], and
    the final state is written out most significant byte first. *)
Definition fips_padding (msg : list byte) : list byte :=
  let len := Z.of_nat (List.length msg) in
  msg ++ [byte.of_Z 0x80]
      ++ replicate (Z.to_nat ((55 - len) mod 64)) Byte.x00
      ++ store_word BigEndian 8 (8 * len).

Definition sha256_fips (msg : list byte) : value :=
  let padded := fips_padding msg in
  of_words BigEndian 4
    (fold_left (fun st blk => sha256_compress blk st)
       (zero_padded_blocks (List.length padded) padded) initial_hash).

(** The messages of the [SHA256/works] test. *)
Definition bytes_of_string (s : string) : list byte :=
  map byte_of_ascii (list_ascii_of_string s).

Definition test_empty : list byte := [].
Definition test_fox : list byte :=
  bytes_of_string "The quick brown fox jumps over the lazy dog".
Definition test_fox_dot : list byte :=
  bytes_of_string "The quick brown fox jumps over the lazy dog.".
Definition test_long : list byte :=
  bytes_of_string "Niall Douglas joined Research In Motion's Platform Development Division in October 2012, having formerly run his own expert consultancy firm in Ireland where he acted as the national representative on ISO's Programming Languages Steering Committee, and previously having worked in a number of firms and roles including as a Chief Software Architect on the EuroFighter defence aircraft's support systems. He holds two undergraduate degrees, one in Software Engineering and the other double majoring in Economics and Management, and holds postgraduate qualifications in Business Information Systems, Educational and Social Research and Pure Mathematics (in progress). He is an affiliate researcher with the University of Waterloo's Institute of Complexity and Innovation, and is the Social Media Coordinator for the World Economics Association, with a book recently published on Financial Economics by Anthem Press. In the past he has sat on a myriad of representative, political and regulatory committees across multiple organisations and has contributed many tens of thousands of lines of source code to multiple open source projects. He is well represented on expert technical forums, with several thousand posts made over the past decade.".

(** The arguments of the batch call of the [SHA256/works] test. *)
Definition test_datas : list (list byte) :=
  [test_empty; test_fox; test_fox_dot; test_long].
Definition test_hashes : list value := replicate 4 (null 32).

End SHA256.

(** ** Random fill *)

Module Random.

Import FixedWidth.

(** A generator of [<random>]: its state, [sizeof(result_type)],
    seeding by a value of [random_device], and one draw. *)
Record generator := mk_generator {
  gen_state : Type;
  result_size : Z;
  gen_seed : Z -> gen_state;
  gen_next : gen_state -> Z * gen_state
}.

Section FillRandom.

Variable host : endianness.
Variable G : generator.

(** [*tofill++=gen()] with [tofill] at byte offset [off] of [buffer]. *)
Definition put_word (buffer : list byte) (off : Z) (w : Z) : run (list byte) :=
  if off + result_size G <=? Z.of_nat (List.length buffer) then
    Returned (take (Z.to_nat off) buffer
              ++ store_word host (Z.to_nat (result_size G)) w
              ++ drop (Z.to_nat (off + result_size G)) buffer)
  else Stopped BufferOverrun.

(** Lines 52-53. *)
Fixpoint fill_words (thisno : nat) (g : gen_state G) (tofill : Z)
  (buffer : list byte) : run (gen_state G * Z * list byte) :=
  match thisno with
  | O => Returned (g, tofill, buffer)
  | S n =>
      buffer' ← put_word buffer tofill (fst (gen_next G g));
      fill_words n (snd (gen_next G g)) (tofill + result_size G) buffer'
  end.

(** Lines 56-59, given at most [fuel] turns; [remaining] is a [size_t]. *)
Fixpoint fill_remaining (fuel : nat) (remaining : Z) (g : gen_state G)
  (tofill : Z) (buffer : list byte) : run (list byte) :=
  if 0 <? remaining then
    match fuel with
    | O => OutOfFuel
    | S fuel' =>
        buffer' ← put_word buffer tofill (fst (gen_next G g));
        fill_remaining fuel' (to_size_t (remaining - result_size G))
          (snd (gen_next G g)) (tofill + result_size G) buffer'
    end
  else Returned buffer.

(** [FillRandom<generator_type>(buffer, length)]; [rd] is the value the
    [random_device] gives, [buffer] the storage [buffer] points to. *)
Definition FillRandom (fuel : nat) (rd : Z) (buffer : list byte) (length : Z)
  : run (list byte) :=
  let partitions := 1 in
  let thispartition := 0 in
  let thislength :=
    Z.land (length / partitions) (to_size_t (Z.lnot (result_size G - 1))) in
  let thisno := thislength / result_size G in
  let gen := gen_seed G rd in
  let tofill :=
    if thispartition =? 0 then 0
    else thisno * thispartition * result_size G in
  '(gen, tofill, buffer) ← fill_words (Z.to_nat thisno) gen tofill buffer;
  if thispartition =? partitions - 1 then
    fill_remaining fuel (to_size_t (length - thislength * partitions))
      gen tofill buffer
  else Returned buffer.

End FillRandom.

(** Statements of a function body that may return early. *)
Inductive flow (A : Type) :=
| Next (a : A)
| Return_ (a : A).

Arguments Next {A} a.
Arguments Return_ {A} a.

Definition stmt := list byte -> run (flow (list byte)).

Definition seq (s1 s2 : stmt) : stmt := fun b =>
  f ← s1 b;
  match f with
  | Next b' => s2 b'
  | Return_ b' => Returned (Return_ b')
  end.

Definition call (f : list byte -> run (list byte)) : stmt := fun b =>
  b' ← f b; Returned (Next b').

Definition return_ : stmt := fun b => Returned (Return_ b).

Definition body (s : stmt) (b : list byte) : run (list byte) :=
  f ← s b;
  match f with
  | Next b' => Returned b'
  | Return_ b' => Returned b'
  end.

Section Fill.

Variable host : endianness.

(** [#ifdef __LP64__] and the four generators of [<random>]. *)
Variable lp64 : bool.
Variables mt19937_64 mt19937 ranlux48_base ranlux24_base : generator.

(** The size of one element of [ints]: 16 for [Int128], 32 for
    [Int256]. *)
Variable elem_size : Z.

(** The lines the four functions share: the size in bytes, the
    overflow test, the fill.  [ints] is the storage of the array. *)
Definition checked_fill (G : generator) (fuel : nat) (rd : Z) (no : Z)
  (ints : list byte) : run (list byte) :=
  let length := to_size_t (no * elem_size) in
  if negb (no =? 0) && negb (no =? length / elem_size)
  then Stopped AbortCalled
  else FillRandom host G fuel rd ints length.

Definition FillQualityRandom (fuel : nat) (rd : Z) (ints : list byte) (no : Z)
  : run (list byte) :=
  checked_fill (if lp64 then mt19937_64 else mt19937) fuel rd no ints.

Definition FillFastRandom (fuel : nat) (rd : Z) (ints : list byte) (no : Z)
  : run (list byte) :=
  body
    (seq (call (fun b => FillQualityRandom fuel rd b no))
      (seq return_
        (call (checked_fill (if lp64 then ranlux48_base else ranlux24_base)
                 fuel rd no))))
    ints.

End Fill.

(** The first [n] draws of a generator. *)
Fixpoint draws (G : generator) (n : nat) (g : gen_state G) : list Z :=
  match n with
  | O => []
  | S n' => fst (gen_next G g) :: draws G n' (snd (gen_next G g))
  end.

(** The generator after [n] draws. *)
Fixpoint after_draws (G : generator) (n : nat) (g : gen_state G) : gen_state G :=
  match n with
  | O => g
  | S n' => after_draws G n' (snd (gen_next G g))
  end.

(** A counter with 8-byte results, to run the model on. *)
Definition counter64 : generator :=
  {| gen_state := Z;
     result_size := 8;
     gen_seed := fun rd => rd;
     gen_next := fun g => (g, to_size_t (g + 1)) |}.

Definition counter32 : generator :=
  {| gen_state := Z;
     result_size := 4;
     gen_seed := fun rd => rd;
     gen_next := fun g => (to_uint32 g, to_uint32 (g + 1)) |}.

End Random.

Module Int128.
Definition FillQualityRandom host lp64 mt64 mt :=
  Random.FillQualityRandom host lp64 mt64 mt 16.
Definition FillFastRandom host lp64 mt64 mt rl48 rl24 :=
  Random.FillFastRandom host lp64 mt64 mt rl48 rl24 16.
End Int128.

Module Int256.
Definition FillQualityRandom host lp64 mt64 mt :=
  Random.FillQualityRandom host lp64 mt64 mt 32.
Definition FillFastRandom host lp64 mt64 mt rl48 rl24 :=
  Random.FillFastRandom host lp64 mt64 mt rl48 rl24 32.
End Int256.

(** ** Fast hashes *)

Module FastHash.

Import FixedWidth.

Section WithHashes.

Variable host : endianness.

(** [SpookyHash::Hash128(data, length, hash1, hash2)]: the two words
    are read as seeds and overwritten with the result, here the pair
    returned.  [CityHash128WithSeed(data, length, seed)] on [uint128],
    a pair of 64-bit words. *)
Variable SpookyHash_Hash128 : list byte -> Z -> Z -> Z * Z.
Variable CityHash128WithSeed : list byte -> Z * Z -> Z * Z.

Definition Hash128_AddFastHashTo (h : value) (data : list byte) : value :=
  let spookyhash := asLongLongs host h in
  let r := SpookyHash_Hash128 data (nth 0 spookyhash 0) (nth 1 spookyhash 0) in
  of_words host 8 (<[1%nat := snd r]> (<[0%nat := fst r]> spookyhash)).

Definition Hash256_AddFastHashTo (h : value) (data : list byte) : value :=
  let spookyhash := asLongLongs host h in
  let cityhash := (nth 2 spookyhash 0, nth 3 spookyhash 0) in
  (* n = 0 *)
  let r := SpookyHash_Hash128 data (nth 0 spookyhash 0) (nth 1 spookyhash 0) in
  let words := <[1%nat := snd r]> (<[0%nat := fst r]> spookyhash) in
  (* n = 1 *)
  let cityhash := CityHash128WithSeed data cityhash in
  of_words host 8 (<[3%nat := snd cityhash]> (<[2%nat := fst cityhash]> words)).

End WithHashes.

(** The results of the two hashes as the 64-bit words they are stored
    as. *)
Definition words_of_pair (r : Z * Z) : list Z := [to_size_t r.1; to_size_t r.2].

(** The seed words [AddFastHashTo] reads from the storage. *)
Definition word_at (host : endianness) (h : value) (i : nat) : Z :=
  nth i (asLongLongs host h) 0.

(** Two seeded hashes to run the model on: they mix the seed words
    with the length of the data. *)
Definition toy_spooky (data : list byte) (s1 s2 : Z) : Z * Z :=
  (to_size_t (s1 + 3 * s2 + Z.of_nat (List.length data) + 1),
   to_size_t (s2 + s1 + 7)).

Definition toy_city (data : list byte) (seed : Z * Z) : Z * Z :=
  (to_size_t (snd seed + 5), to_size_t (fst seed + Z.of_nat (List.length data) + 11)).

End FastHash.

(** ** [BatchAddFastHashTo] *)

Module FastHashBatch.

Import FixedWidth.

Section Batch.

(** [AddFastHashTo] of [Hash128] or of [Hash256]. *)
Variable AddFastHashTo : value -> list byte -> value.

(** The body of the loop of [BatchAddFastHashTo] for index [n]:
    [hashs[n].AddFastHashTo(data[n], length[n])].  [data] holds the
    buffers with their lengths. *)
Definition batch_body (data : list (list byte)) (hashs : list value) (n : nat)
  : run (list value) :=
  match hashs !! n, data !! n with
  | Some h, Some d => Returned (<[n := AddFastHashTo h d]> hashs)
  | _, _ => Stopped ReadPastArrays
  end.

(** The loop, its indices taken in the order [order]: [omp parallel
    for] leaves the order to the schedule. *)
Fixpoint batch_in_order (order : list nat) (data : list (list byte))
  (hashs : list value) : run (list value) :=
  match order with
  | [] => Returned hashs
  | n :: rest =>
      hashs' ← batch_body data hashs n;
      batch_in_order rest data hashs'
  end.

(** [BatchAddFastHashTo(no, hashs, data, length)] run in sequence. *)
Definition BatchAddFastHashTo (no : Z) (hashs : list value)
  (data : list (list byte)) : run (list value) :=
  batch_in_order (seq 0 (Z.to_nat no)) data hashs.

End Batch.

End FastHashBatch.

(** ** The turns of the loop of [BatchAddSHA256To] *)

Module SHA256Turns.

Import FixedWidth SHA256.

(** The first [k] turns of [while(!done)], to look at the streams and
    the hashes the loop has reached. *)
Fixpoint batch_turns (host : endianness)
  (int4 : list (list byte) -> list (list Z) -> list (list Z))
  (ndebug : bool) (k : nat) (s : streams) : run streams :=
  match k with
  | O => Returned s
  | S k' =>
      '(s', brk) ← batch_turn host int4 ndebug s;
      if brk : bool then Returned s' else batch_turns host int4 ndebug k' s'
  end.

(** The streams once each of four messages has given [j] blocks. *)
Definition streams_after (j : nat) (mem : list value) (b0 b1 b2 b3 : list byte)
  : streams :=
  {| blks := (fun b => Some (drop (64 * j) b)) <$> [b0; b1; b2; b3];
     lengths := (fun b => Z.of_nat (length b) - 64 * Z.of_nat j)
                <$> [b0; b1; b2; b3];
     out := [Some 0; Some 1; Some 2; Some 3]%nat;
     tobefinished := [];
     done := false;
     no := 0;
     data := [];
     hashs_next := 4;
     hashs_mem := mem |}.

End SHA256Turns.

(** ** The small generator of the unit tests *)

Module SmallPRNG.

(** [struct ranctx { u4 a; u4 b; u4 c; u4 d; }] *)
Record ranctx := mk_ranctx { ra : Z; rb : Z; rc : Z; rd : Z }.

(** [#define rot(x,k) (((x)<<(k))|((x)>>(32-(k))))] on [u4]. *)
Definition rot (x k : Z) : Z :=
  Z.lor (to_uint32 (Z.shiftl x k)) (Z.shiftr x (32 - k)).

(** [ranval]: the value returned and the state left in [*x]. *)
Definition ranval (x : ranctx) : Z * ranctx :=
  let e := to_uint32 (ra x - rot (rb x) 27) in
  let a := Z.lxor (rb x) (rot (rc x) 17) in
  let b := to_uint32 (rc x + rd x) in
  let c := to_uint32 (rd x + e) in
  let d := to_uint32 (e + a) in
  (d, {| ra := a; rb := b; rc := c; rd := d |}).

(** [raninit]: twenty values are drawn and dropped. *)
Definition raninit (seed : Z) : ranctx :=
  Nat.iter 20 (fun x => (ranval x).2)
    {| ra := 0xf1ea5eed; rb := seed; rc := seed; rd := seed |}.

(** A state of four [u4]. *)
Definition ranctx_ok (x : ranctx) : Prop :=
  0 <= ra x < 2 ^ 32 /\ 0 <= rb x < 2 ^ 32 /\
  0 <= rc x < 2 ^ 32 /\ 0 <= rd x < 2 ^ 32.

(** The state [ranval] started from, recovered from the state it
    left. *)
Definition ranval_back (y : ranctx) : ranctx :=
  let e := to_uint32 (rd y - ra y) in
  let d := to_uint32 (rc y - e) in
  let c := to_uint32 (rb y - d) in
  let b := Z.lxor (ra y) (rot c 17) in
  let a := to_uint32 (e + rot b 27) in
  {| ra := a; rb := b; rc := c; rd := d |}.

End SmallPRNG.

(** ** [StaticTypeRegistryStorage] *)

(** Undefined behaviour the utilities of [NiallsCPP11Utilities.hpp] can
    run into. *)
Inductive undefined :=
| NullContainer     (* a member of the deleted container is called *)
| BackOfEmpty       (* [*r->rbegin()] of an empty container *)
| DerefEnd          (* [it->first] with [it] the end of the map *)
| DecrementBegin.   (* [--it] with [it] the begin of the map *)

Inductive outcome (A : Type) :=
| Done (a : A)
| Undefined (u : undefined).

Arguments Done {A} a.
Arguments Undefined {A} u.

#[global] Instance outcome_ret : MRet outcome := @Done.

#[global] Instance outcome_bind : MBind outcome := fun A B k r =>
  match r with
  | Done a => k a
  | Undefined u => Undefined u
  end.

Module Registry.

Section WithType.

(** The registered type, compared with [==]. *)
Context {T : Type} `{EqDecision T}.

(** One registry as one module sees it: [cached] says that the static
    [_registryStorage] is set; [slot] is the pointer it points to,
    [containerstorage] of the process-wide map, [None] being null and
    [Some l] a container holding [l]. *)
Record registry := mk_registry {
  cached : bool;
  slot : option (list T)
}.

Definition unused : registry := {| cached := false; slot := None |}.

(** [registryStorage()]: the container is made when the cache is not
    set and the slot is null; later calls return the cached pointer. *)
Definition registryStorage (r : registry) : registry :=
  if cached r then r
  else {| cached := true;
          slot := match slot r with
                  | None => Some []
                  | Some l => Some l
                  end |}.

(** [push_back(c)] on the container [registryStorage()] points to. *)
Definition RegisterData (c : T) (r : registry) : outcome registry :=
  let r1 := registryStorage r in
  match slot r1 with
  | None => Undefined NullContainer
  | Some l => Done {| cached := cached r1; slot := Some (l ++ [c]) |}
  end.

(** [std::remove(r->begin(), r->end(), c)] with the [erase] of what it
    leaves behind. *)
Definition remove_all (c : T) (l : list T) : list T :=
  filter (fun x => x <> c) l.

Definition UnregisterData (c : T) (r : registry) : outcome registry :=
  let r1 := registryStorage r in
  match slot r1 with
  | None => Undefined NullContainer
  | Some l =>
      match last l with
      | None => Undefined BackOfEmpty
      | Some x =>
          let l' := if decide (x = c) then removelast l else remove_all c l in
          match l' with
          | [] => Done {| cached := cached r1; slot := None |}
          | _ => Done {| cached := cached r1; slot := Some l' |}
          end
      end
  end.

(** [StaticTypeRegistry::size()], through [__me()]. *)
Definition size (r : registry) : outcome (registry * nat) :=
  let r1 := registryStorage r in
  match slot r1 with
  | None => Undefined NullContainer
  | Some l => Done (r1, length l)
  end.

(** Calls of [RegisterData] and [UnregisterData]. *)
Inductive call :=
| Register (c : T)
| Unregister (c : T).

Definition do_call (k : call) (r : registry) : outcome registry :=
  match k with
  | Register c => RegisterData c r
  | Unregister c => UnregisterData c r
  end.

Fixpoint do_calls (ks : list call) (r : registry) : outcome registry :=
  match ks with
  | [] => Done r
  | k :: ks' => r' ← do_call k r; do_calls ks' r'
  end.

End WithType.

Arguments registry T : clear implicits.

End Registry.

(** ** [Undoer] *)

Module Undoer.

Section WithWorld.

(** What the callable acts on. *)
Variable World : Type.

(** [UndoerImpl<callable>]; the callable is [None] when [is_nullptr]
    says so. *)
Record UndoerImpl := mk_undoer {
  undoer : option (World -> World);
  _dismissed : bool
}.

(** [explicit UndoerImpl(callable &&c)] *)
Definition construct (c : option (World -> World)) : UndoerImpl :=
  {| undoer := c; _dismissed := false |}.

Definition int_trigger (u : UndoerImpl) (w : World) : UndoerImpl * World :=
  match _dismissed u, undoer u with
  | false, Some f => ({| undoer := undoer u; _dismissed := true |}, f w)
  | _, _ => (u, w)
  end.

(** [UndoerImpl(UndoerImpl &&o)]: the new object and what is left of
    [o], whose callable is taken to be as it was (a function pointer or
    a lambda is copied by [std::move]). *)
Definition move_construct (o : UndoerImpl) : UndoerImpl * UndoerImpl :=
  ({| undoer := undoer o; _dismissed := _dismissed o |},
   {| undoer := undoer o; _dismissed := true |}).

(** [operator=(UndoerImpl &&o)]: [*this], what is left of [o], and the
    world. *)
Definition move_assign (this o : UndoerImpl) (w : World)
  : UndoerImpl * UndoerImpl * World :=
  let '(_, w1) := int_trigger this w in
  ({| undoer := undoer o; _dismissed := _dismissed o |},
   {| undoer := undoer o; _dismissed := true |},
   w1).

(** [~UndoerImpl()]: the world the object leaves behind. *)
Definition destroy (u : UndoerImpl) (w : World) : World :=
  (int_trigger u w).2.

Definition dismissed (u : UndoerImpl) : bool := _dismissed u.

Definition dismiss (d : bool) (u : UndoerImpl) : UndoerImpl :=
  {| undoer := undoer u; _dismissed := d |}.

Definition undismiss (d : bool) (u : UndoerImpl) : UndoerImpl :=
  {| undoer := undoer u; _dismissed := negb d |}.

(** [Undoer(c)] without copy elision: [foo] is constructed, moved into
    the value returned and destroyed. *)
Definition Undoer (c : option (World -> World)) (w : World)
  : UndoerImpl * World :=
  let foo := construct c in
  let '(ret, foo') := move_construct foo in
  (ret, destroy foo' w).

(** [n] times in a row the newest object is moved into a new one:
    what is left of the objects moved from, oldest first, and the
    newest object. *)
Fixpoint move_chain (n : nat) (u : UndoerImpl) : list UndoerImpl * UndoerImpl :=
  match n with
  | O => ([], u)
  | S n' =>
      let '(new, old) := move_construct u in
      let '(olds, newest) := move_chain n' new in
      (old :: olds, newest)
  end.

(** The objects [us] are destroyed one after the other. *)
Definition destroy_all (us : list UndoerImpl) (w : World) : World :=
  fold_left (fun w u => destroy u w) us w.

End WithWorld.

Arguments move_chain {World} n u.
Arguments destroy_all {World} us w.
Arguments undoer {World} u.
Arguments _dismissed {World} u.
Arguments construct {World} c.
Arguments int_trigger {World} u w.
Arguments move_construct {World} o.
Arguments move_assign {World} this o w.
Arguments destroy {World} u w.
Arguments dismissed {World} u.
Arguments dismiss {World} d u.
Arguments undismiss {World} d u.
Arguments Undoer {World} c w.

End Undoer.

(** ** [FromCodePoint] *)

Module CodePoint.

Record MappedFileInfo := mk_info {
  path : string;
  startaddr : Z;
  endaddr : Z;
  offset : Z;
  length : Z;
  read : bool;
  write : bool;
  execute : bool;
  copyonwrite : bool
}.

(** A [std::map<size_t, MappedFileInfo>] as its entries in the order
    of the keys; an iterator is an index, the end the length. *)
Abbreviation map_list := (list (Z * MappedFileInfo)).

(** [list.lower_bound(addr)]: the first entry whose key is not less
    than [addr]. *)
Fixpoint lower_bound (m : map_list) (addr : Z) : nat :=
  match m with
  | [] => 0
  | (k, _) :: m' => if k <? addr then S (lower_bound m' addr) else 0
  end.

(** [FromCodePoint(list, codepoint)] with [addr] the address of the
    code point; [None] is [list.cend()]. *)
Definition FromCodePoint (m : map_list) (addr : Z)
  : outcome (option (nat * (Z * MappedFileInfo))) :=
  let it := lower_bound m addr in
  match m !! it with
  | None => Undefined DerefEnd
  | Some (k, _) =>
      it' ← (if addr <? k
             then match it with
                  | O => Undefined DecrementBegin
                  | S i => Done i
                  end
             else Done it);
      match m !! it' with
      | None => Undefined DerefEnd
      | Some (k', info) =>
          if (startaddr info <=? addr) && (addr <? endaddr info)
          then Done (Some (it', (k', info)))
          else Done None
      end
  end.

(** The keys of a map come in strictly increasing order. *)
Fixpoint keys_sorted (m : map_list) : Prop :=
  match m with
  | [] => True
  | (k, _) :: m' =>
      match m' with
      | [] => True
      | (k', _) :: _ => k < k'
      end /\ keys_sorted m'
  end.

Definition info_at (s e : Z) : MappedFileInfo :=
  {| path := ""; startaddr := s; endaddr := e; offset := 0; length := e - s;
     read := true; write := false; execute := true; copyonwrite := false |}.

End CodePoint.

(** * Properties *)

(** ** Fixed-width values: ordering *)

Module FixedWidthFacts.

Import FixedWidth.

Lemma be_value_range (v : value) :
  0 <= be_value v < 2 ^ (8 * Z.of_nat (length v)).
Proof.
  induction v as [|b t IH]; cbn [be_value length].
  - change (2 ^ (8 * Z.of_nat 0)) with 1. lia.
  - pose proof (byte.unsigned_range b) as Hb.
    change (2 ^ 8) with 256 in Hb.
    replace (8 * Z.of_nat (S (length t))) with (8 + 8 * Z.of_nat (length t)) by lia.
    rewrite Z.pow_add_r by lia. change (2 ^ 8) with 256.
    nia.
Qed.

(** The numeric order is the order of the first bytes that differ. *)
Lemma compare_memcmp (x y : value) :
  length x = length y ->
  compare x y = (memcmp x y (length x) ?= 0).
Proof.
  revert y. induction x as [|a x IH]; intros [|b y] Hlen; try discriminate.
  - reflexivity.
  - injection Hlen as Hlen. unfold compare in *.
    cbn [be_value memcmp length]. rewrite <- Hlen.
    pose proof (be_value_range x) as Hx.
    pose proof (be_value_range y) as Hy. rewrite <- Hlen in Hy.
    set (p := 2 ^ (8 * Z.of_nat (length x))) in *.
    destruct (Z.eqb_spec (byte.unsigned a) (byte.unsigned b)) as [Heq|Hne].
    + rewrite <- IH by assumption. rewrite Heq.
      destruct (Z.compare_spec (be_value x) (be_value y)) as [E|L|G].
      * apply Z.compare_eq_iff. lia.
      * apply Z.compare_lt_iff. lia.
      * apply Z.compare_gt_iff. lia.
    + destruct (Z.compare_spec (byte.unsigned a - byte.unsigned b) 0) as [E|L|G].
      * lia.
      * apply Z.compare_lt_iff. nia.
      * apply Z.compare_gt_iff. nia.
Qed.

Lemma eqb_eq (x y : value) : eqb x y = true <-> x = y.
Proof.
  revert y. induction x as [|a x IH]; intros [|b y]; cbn [eqb];
    try (split; [discriminate|congruence]).
  - split; reflexivity.
  - rewrite andb_true_iff, IH. split.
    + intros [Hab ->]. apply Byte.byte_dec_bl in Hab. congruence.
    + intros [= -> ->]. split; [apply Byte.byte_dec_lb|]; reflexivity.
Qed.

Lemma memcmp_zero_iff (x y : value) :
  length x = length y ->
  memcmp x y (length x) = 0 <-> x = y.
Proof.
  revert y. induction x as [|a x IH]; intros [|b y] Hlen; try discriminate.
  - split; reflexivity.
  - injection Hlen as Hlen. cbn [memcmp length].
    destruct (Z.eqb_spec (byte.unsigned a) (byte.unsigned b)) as [Heq|Hne].
    + apply byte.unsigned_inj in Heq. subst b. rewrite IH by assumption.
      split; congruence.
    + split; [lia|]. intros [= -> ->]. contradiction.
Qed.

(** C6.  For two values of the same width (16 bytes for [Int128], 32
    for [Int256]) exactly one of [x<y], [x==y], [x>y] holds, and each of
    the three agrees with the sign of [memcmp] on the stored bytes: the
    numeric comparison and the memory comparison never disagree. *)
Theorem comparisons_agree_with_memcmp (nbytes : nat) (x y : value) :
  sized nbytes x -> sized nbytes y ->
  exactly_one (ltb x y) (eqb x y) (gtb x y) /\
  ltb x y = (memcmp x y nbytes <? 0) /\
  eqb x y = (memcmp x y nbytes =? 0) /\
  gtb x y = (0 <? memcmp x y nbytes).
Proof.
  unfold sized. intros Hx Hy.
  assert (Hlen : length x = length y) by congruence.
  pose proof (compare_memcmp x y Hlen) as Hc.
  pose proof (memcmp_zero_iff x y Hlen) as Hz.
  pose proof (eqb_eq x y) as He.
  rewrite Hx in Hc, Hz.
  unfold ltb, gtb, exactly_one. rewrite Hc.
  destruct (Z.compare_spec (memcmp x y nbytes) 0) as [E|L|G].
  - assert (Heq : eqb x y = true) by (apply He, Hz, E).
    rewrite Heq, E. cbn. auto 10.
  - assert (Hne : eqb x y = false).
    { apply not_true_is_false. intros Hb. apply He, Hz in Hb. lia. }
    rewrite Hne.
    replace (memcmp x y nbytes <? 0) with true by (symmetry; apply Z.ltb_lt; lia).
    replace (memcmp x y nbytes =? 0) with false by (symmetry; apply Z.eqb_neq; lia).
    replace (0 <? memcmp x y nbytes) with false by (symmetry; apply Z.ltb_ge; lia).
    auto 10.
  - assert (Hne : eqb x y = false).
    { apply not_true_is_false. intros Hb. apply He, Hz in Hb. lia. }
    rewrite Hne.
    replace (memcmp x y nbytes <? 0) with false by (symmetry; apply Z.ltb_ge; lia).
    replace (memcmp x y nbytes =? 0) with false by (symmetry; apply Z.eqb_neq; lia).
    replace (0 <? memcmp x y nbytes) with true by (symmetry; apply Z.ltb_lt; lia).
    auto 10.
Qed.

(** The theorem at the two values of the [Int128/works] test. *)
Lemma comparisons_agree_with_memcmp_witness :
  sized 16 test_hash1 /\ sized 16 test_hash2 /\
  exactly_one (ltb test_hash1 test_hash2) (eqb test_hash1 test_hash2)
    (gtb test_hash1 test_hash2) /\
  ltb test_hash1 test_hash2 = (memcmp test_hash1 test_hash2 16 <? 0) /\
  eqb test_hash1 test_hash2 = (memcmp test_hash1 test_hash2 16 =? 0) /\
  gtb test_hash1 test_hash2 = (0 <? memcmp test_hash1 test_hash2 16).
Proof.
  split; [reflexivity|]. split; [reflexivity|].
  apply (comparisons_agree_with_memcmp 16 test_hash1 test_hash2); reflexivity.
Defined.

End FixedWidthFacts.

(** ** SHA-256 of one message *)

Module SHA256Facts.

Import FixedWidth SHA256.

(** The bound of [zero_padded_blocks] does not matter once it covers
    the data. *)
Lemma zero_padded_blocks_fuel (fuel1 fuel2 : nat) (data : list byte) :
  (length data <= fuel1)%nat -> (length data <= fuel2)%nat ->
  zero_padded_blocks fuel1 data = zero_padded_blocks fuel2 data.
Proof.
  revert fuel2 data.
  induction fuel1 as [|f1 IH]; intros fuel2 data H1 H2.
  - destruct data; [|cbn in H1; lia]. destruct fuel2; reflexivity.
  - destruct data as [|b t]; [destruct fuel2; reflexivity|].
    destruct fuel2 as [|f2]; [cbn in H2; lia|].
    cbn [zero_padded_blocks]. f_equal.
    apply IH; rewrite length_drop; cbn [length] in *; lia.
Qed.

Lemma zero_padded_blocks_full (data : list byte) :
  (64 <= length data)%nat ->
  zero_padded_blocks (length data) data =
  take 64 data :: zero_padded_blocks (length (drop 64 data)) (drop 64 data).
Proof.
  intros Hlen. destruct data as [|b t]; [cbn in Hlen; lia|].
  set (data := b :: t) in *.
  assert (Hs : length data = S (length t)) by reflexivity.
  rewrite Hs at 1. unfold data at 1. cbn [zero_padded_blocks]. fold data.
  rewrite length_take_le by lia.
  rewrite Nat.sub_diag. cbn [replicate]. rewrite app_nil_r. f_equal.
  apply zero_padded_blocks_fuel; rewrite ?length_drop; lia.
Qed.

Lemma zero_padded_blocks_tail (data : list byte) :
  (0 < length data < 64)%nat ->
  zero_padded_blocks (length data) data =
  [data ++ replicate (64 - length data) Byte.x00].
Proof.
  intros Hlen. destruct data as [|b t]; [cbn in Hlen; lia|].
  set (data := b :: t) in *.
  assert (Hs : length data = S (length t)) by reflexivity.
  rewrite Hs at 1. unfold data at 1. cbn [zero_padded_blocks]. fold data.
  rewrite take_ge by lia. rewrite drop_ge by lia.
  destruct (length t); reflexivity.
Qed.

Section Blocks.

Context {St : Type}.
Variable step : list byte -> St -> St.

Lemma osol_blocks_fold (n : nat) :
  forall (data : list byte) (h : St),
  (64 * n <= length data)%nat ->
  fold_left (feed step) (zero_padded_blocks (length data) data) h =
  fold_left (feed step)
    (zero_padded_blocks (length (osol_blocks step n data h).1)
       (osol_blocks step n data h).1)
    (osol_blocks step n data h).2
  /\ length (osol_blocks step n data h).1 = (length data - 64 * n)%nat.
Proof.
  induction n as [|n IH]; intros data h Hlen.
  - cbn [osol_blocks fst snd]. split; [reflexivity|lia].
  - cbn [osol_blocks]. change (Z.to_nat block_size) with 64%nat.
    rewrite zero_padded_blocks_full by lia. cbn [fold_left].
    destruct (IH (drop 64 data) (feed step h (take 64 data))) as [IH1 IH2].
    { rewrite length_drop. lia. }
    change (feed step h (take 64 data)) with (step (take 64 data) h) in IH1, IH2.
    split; [exact IH1|].
    rewrite IH2, length_drop. lia.
Qed.

(** [AddSHA256To] folds the action over the zero-padded blocks. *)
Lemma AddSHA256To_with_blocks (h : St) (data : list byte) :
  AddSHA256To_with step h data =
  fold_left (feed step) (zero_padded_blocks (length data) data) h.
Proof.
  unfold AddSHA256To_with, block_size.
  set (len := Z.of_nat (length data)).
  assert (Hdiv : len / 64 = Z.of_nat (length data / 64)).
  { unfold len. rewrite (Nat2Z.inj_div _ 64). reflexivity. }
  rewrite Hdiv, Nat2Z.id.
  pose proof (Nat.div_mod_eq (length data) 64) as Hdm.
  pose proof (Nat.mod_upper_bound (length data) 64 ltac:(lia)) as Hm.
  destruct (osol_blocks_fold (length data / 64) data h) as [Hfold Hrest]; [lia|].
  rewrite Hfold.
  destruct (osol_blocks step (length data / 64)%nat data h) as [blks h1].
  cbn [fst snd] in *.
  assert (Hrem : len - Z.of_nat (length data / 64) * 64 = Z.of_nat (length blks)).
  { unfold len. rewrite Hrest. lia. }
  rewrite Hrem.
  destruct (Z.eqb_spec (Z.of_nat (length blks)) 0) as [E|E].
  - destruct blks; [|cbn in E; lia]. reflexivity.
  - rewrite zero_padded_blocks_tail by lia. cbn [fold_left]. unfold feed.
    f_equal. unfold memcpy, zeroed_block. rewrite Nat2Z.id.
    rewrite take_ge by lia. rewrite drop_replicate. reflexivity.
Qed.

End Blocks.

Lemma fold_left_snoc {A : Type} (l acc : list A) :
  fold_left (fun trace x => trace ++ [x]) l acc = acc ++ l.
Proof.
  revert acc. induction l as [|x l IH]; intros acc; cbn [fold_left].
  - rewrite app_nil_r. reflexivity.
  - rewrite IH, <- app_assoc. reflexivity.
Qed.

Lemma blocks_compressed_eq (data : list byte) :
  blocks_compressed data = zero_padded_blocks (length data) data.
Proof.
  unfold blocks_compressed. rewrite AddSHA256To_with_blocks.
  apply fold_left_snoc.
Qed.

(** The padded blocks have 64 bytes each, and together they are the
    data followed by fewer than 64 zero bytes. *)
Lemma zero_padded_blocks_shape (fuel : nat) :
  forall data : list byte,
  (length data <= fuel)%nat ->
  Forall (fun blk => length blk = 64%nat) (zero_padded_blocks fuel data) /\
  exists k : nat,
    (k < 64)%nat /\
    concat (zero_padded_blocks fuel data) = data ++ replicate k Byte.x00.
Proof.
  induction fuel as [|fuel IH]; intros data Hlen.
  - destruct data; [|cbn in Hlen; lia]. split; [constructor|].
    exists 0%nat. split; [lia|reflexivity].
  - destruct data as [|b t].
    { split; [constructor|]. exists 0%nat. split; [lia|reflexivity]. }
    cbn [zero_padded_blocks].
    set (data := b :: t) in *.
    assert (Hpos : (0 < length data)%nat) by (cbn; lia).
    destruct (IH (drop 64 data)) as [Hall [k [Hk Hcat]]].
    { rewrite length_drop. lia. }
    split.
    + constructor; [|exact Hall].
      rewrite length_app, length_replicate, length_take. lia.
    + cbn [concat]. rewrite Hcat.
      destruct (Nat.le_gt_cases 64 (length data)) as [Hge|Hlt].
      * exists k. split; [exact Hk|].
        rewrite length_take_le by lia. cbn [replicate Nat.sub].
        rewrite app_nil_r, app_assoc, take_drop. reflexivity.
      * exists (64 - length data)%nat. split; [lia|].
        rewrite take_ge by lia. rewrite drop_ge by lia.
        rewrite <- app_assoc. cbn [app].
        destruct k; cbn [replicate]; rewrite ?app_nil_r; [reflexivity|].
        exfalso. apply (f_equal (@length byte)) in Hcat.
        rewrite drop_ge in Hcat by lia.
        assert (Hz : zero_padded_blocks fuel [] = []) by (destruct fuel; reflexivity).
        rewrite Hz in Hcat. discriminate.
Qed.

(** The compression function above is the one of FIPS 180-4: with the
    standard padding and initial state it gives the digests the
    [SHA256/works] test expects. *)
Lemma sha256_fips_vectors :
  asHexString (sha256_fips test_empty) =
    "e3b0c44298fc1c149afbf4c8996fb92427ae41e4649b934ca495991b7852b855"%string /\
  asHexString (sha256_fips test_fox) =
    "d7a8fbb307d7809469ca9abcb0082e4f8d5651e46d3cdb762d02d0bf37c9e592"%string /\
  asHexString (sha256_fips (bytes_of_string "abc")) =
    "ba7816bf8f01cfea414140de5dae2223b00361a396177a9cb410ff61f20015ad"%string.
Proof. repeat split; vm_compute; reflexivity. Qed.

(** C3.  [AddSHA256To] feeds the consecutive 64-byte blocks of the
    input, in order, through the compression function; a final partial
    block is filled up with zero bytes; the blocks compressed are the
    data followed by fewer than 64 zero bytes and nothing else, so no
    0x80 byte and no length are appended. *)
Theorem AddSHA256To_zero_pads (host : endianness)
  (osol : list byte -> list Z -> list Z) (h : value) (data : list byte) :
  AddSHA256To host osol h data = hashOne_spec (osol_into host osol) h data /\
  blocks_compressed data = zero_padded_blocks (length data) data /\
  Forall (fun blk => length blk = 64%nat) (blocks_compressed data) /\
  exists k : nat,
    (k < 64)%nat /\
    concat (blocks_compressed data) = data ++ replicate k Byte.x00.
Proof.
  split; [apply AddSHA256To_with_blocks|].
  split; [apply blocks_compressed_eq|].
  rewrite blocks_compressed_eq.
  apply zero_padded_blocks_shape. lia.
Qed.

(** C7.  With length 0 no block is compressed and the hash is left as
    it was, whatever it held. *)
Theorem AddSHA256To_zero_length (host : endianness)
  (osol : list byte -> list Z -> list Z) (h : value) :
  AddSHA256To host osol h [] = h /\ blocks_compressed [] = [].
Proof. split; reflexivity. Qed.

(** C4.  The empty message on a default-constructed [Hash256], as in
    the [SHA256/works] test: the hash stays null and is rendered as 64
    zeros, whatever the compression function and the byte order; the
    test expects the FIPS digest of the empty message. *)
Theorem AddSHA256To_empty_hex (host : endianness)
  (osol : list byte -> list Z -> list Z) :
  asHexString (AddSHA256To host osol (null 32) test_empty) =
    "0000000000000000000000000000000000000000000000000000000000000000"%string /\
  asHexString (AddSHA256To host osol (null 32) test_empty) <>
    "e3b0c44298fc1c149afbf4c8996fb92427ae41e4649b934ca495991b7852b855"%string.
Proof. split; [reflexivity|discriminate]. Qed.

(** C5.  The 43-byte message of the [SHA256/works] test on a
    default-constructed [Hash256]: one compression of the zero-filled
    block from the null state.  On either byte order the rendering is
    not the FIPS digest the test expects. *)
Theorem AddSHA256To_fox_hex :
  List.length test_fox = 43%nat /\
  blocks_compressed test_fox = [test_fox ++ replicate 21 Byte.x00] /\
  asHexString (AddSHA256To LittleEndian sha256_compress (null 32) test_fox) =
    "d5ccc87a131e29f385e36cf86e8cac51c7a0866802d7c3dac69548a6f4ede2b2"%string /\
  asHexString (AddSHA256To BigEndian sha256_compress (null 32) test_fox) =
    "7ac8ccd5f3291e13f86ce38551ac8c6e6886a0c7dac3d702a64895c6b2e2edf4"%string /\
  forall host : endianness,
    asHexString (AddSHA256To host sha256_compress (null 32) test_fox) <>
    "d7a8fbb307d7809469ca9abcb0082e4f8d5651e46d3cdb762d02d0bf37c9e592"%string.
Proof.
  split; [reflexivity|]. split; [reflexivity|].
  assert (HL : asHexString (AddSHA256To LittleEndian sha256_compress (null 32) test_fox) =
    "d5ccc87a131e29f385e36cf86e8cac51c7a0866802d7c3dac69548a6f4ede2b2"%string)
    by (vm_compute; reflexivity).
  assert (HB : asHexString (AddSHA256To BigEndian sha256_compress (null 32) test_fox) =
    "7ac8ccd5f3291e13f86ce38551ac8c6e6886a0c7dac3d702a64895c6b2e2edf4"%string)
    by (vm_compute; reflexivity).
  split; [exact HL|]. split; [exact HB|].
  intros [|]; [rewrite HL|rewrite HB]; discriminate.
Qed.

End SHA256Facts.

(** ** The batched SHA-256 *)

Module BatchFacts.

Import FixedWidth SHA256.

Lemma size_t_decrement (n : Z) :
  0 <= n < 2 ^ 64 -> n <> 0 ->
  to_size_t (n - 1) = n - 1 /\ (to_size_t (n - 1) =? size_max) = false.
Proof.
  intros Hn Hz. unfold to_size_t, size_max.
  rewrite Z.mod_small by lia. split; [reflexivity|].
  apply Z.eqb_neq. lia.
Qed.

Lemma is_null_false {A : Type} (p : option (option A)) :
  is_null p = false -> exists b, p = Some (Some b).
Proof. destruct p as [[b|]|]; try discriminate. eauto. Qed.

(** Taking the next message never sets [done]: the test of line 189
    compares [no], just decremented from a nonzero value, with
    [(size_t)-1]. *)
Lemma load_stream_cases (n : nat) (s : streams) :
  streams_wf s ->
  (exists s', load_stream n s = Returned (s', false) /\
     streams_wf s' /\ (arrays_cover s -> arrays_cover s') /\
     (forall m, m <> n ->
        blks s' !! m = blks s !! m /\ lengths s' !! m = lengths s !! m) /\
     ((n < 4)%nat -> is_null (blks s' !! n) = false ->
        exists l, lengths s' !! n = Some l /\
                  Z.to_nat (l / block_size) = stream_turns n s)) \/
  (load_stream n s = Stopped ReadPastArrays /\ ~ arrays_cover s).
Proof.
  intros Hwf. pose proof Hwf as (Hdone & Hno & Hb & Hl). unfold load_stream.
  destruct (is_null (blks s !! n)) eqn:Hnull; cbn [andb].
  2:{ left. exists s. split_and!; try tauto; try assumption.
      intros Hn _. apply is_null_false in Hnull as [b Hb'].
      destruct (lookup_lt_is_Some_2 (lengths s) n) as [l Hl']; [lia|].
      exists l. split; [exact Hl'|].
      unfold stream_turns. rewrite Hb', Hl'. reflexivity. }
  destruct (Z.eqb_spec (no s) 0) as [Hz|Hz]; cbn [negb].
  { left. exists s. split_and!; try tauto; try assumption.
    intros _ Hnn. congruence. }
  destruct (data s) as [|d rest] eqn:Hdata.
  { right. split; [reflexivity|]. unfold arrays_cover. rewrite Hdata. cbn. lia. }
  destruct (size_t_decrement (no s) Hno Hz) as [Hdec Hmax].
  left. rewrite Hmax. eexists. split; [reflexivity|].
  unfold streams_wf, arrays_cover.
  cbn [done no blks lengths data orb]. rewrite Hdata, Hdec, !length_insert.
  split_and!; try assumption; try lia.
  - cbn [length]. lia.
  - intros m Hm. split; apply list_lookup_insert_ne; congruence.
  - intros Hn _. exists (Z.of_nat (length d)).
    split; [apply list_lookup_insert_eq; lia|].
    unfold stream_turns. rewrite Hdata.
    destruct (blks s !! n) as [[b|]|]; [discriminate| |]; reflexivity.
Qed.

Lemma retire_stream_cases (n : nat) (s : streams) :
  streams_wf s ->
  streams_wf (retire_stream n s) /\
  (arrays_cover s -> arrays_cover (retire_stream n s)) /\
  (forall m, m <> n ->
     blks (retire_stream n s) !! m = blks s !! m /\
     lengths (retire_stream n s) !! m = lengths s !! m) /\
  (forall l, (n < 4)%nat -> lengths s !! n = Some l ->
     is_null (blks (retire_stream n s) !! n) = false ->
     block_size <= l /\ retire_stream n s = s).
Proof.
  intros Hwf. pose proof Hwf as (Hdone & Hno & Hb & Hl).
  unfold retire_stream.
  destruct (blks s !! n) as [[b|]|] eqn:Hbn.
  2,3: split_and!; try tauto;
       intros l _ Hln Hnull; rewrite Hbn in Hnull; cbn in Hnull; discriminate.
  destruct (lengths s !! n) as [l|] eqn:Hln.
  2:{ split_and!; try tauto. intros l _ Hc. discriminate. }
  destruct (Z.ltb_spec l block_size) as [Hlt|Hge].
  - unfold streams_wf, arrays_cover. cbn [done no blks lengths data].
    rewrite length_insert. split_and!; try tauto.
    + intros m Hm. split; [|reflexivity].
      apply list_lookup_insert_ne. congruence.
    + intros l' Hn _ Hnull.
      rewrite list_lookup_insert_eq in Hnull by lia. discriminate.
  - split_and!; try tauto.
    intros l' _ [= <-] _. split; [exact Hge|reflexivity].
Qed.

Lemma fill_streams_cases (ns : list nat) :
  forall s : streams,
  streams_wf s ->
  (exists s', fill_streams ns s = Returned s' /\
     streams_wf s' /\ (arrays_cover s -> arrays_cover s') /\
     (forall m, m ∉ ns ->
        blks s' !! m = blks s !! m /\ lengths s' !! m = lengths s !! m)) \/
  (fill_streams ns s = Stopped ReadPastArrays /\ ~ arrays_cover s).
Proof.
  induction ns as [|n ns IH]; intros s Hwf.
  - left. exists s. split_and!; try tauto; try assumption.
  - cbn [fill_streams].
    destruct (load_stream_cases n s Hwf)
      as [(s1 & Hload & Hwf1 & Hcov1 & Hoth1 & _)|[Hload Hcov]].
    2:{ right. rewrite Hload. split; [reflexivity|exact Hcov]. }
    rewrite Hload. cbn.
    destruct (retire_stream_cases n s1 Hwf1) as (Hwf2 & Hcov2 & Hoth2 & _).
    destruct (IH (retire_stream n s1) Hwf2)
      as [(s3 & Hfill & Hwf3 & Hcov3 & Hoth3)|[Hfill Hcov]].
    + left. exists s3. split_and!; try assumption; try tauto.
      intros m Hm. apply not_elem_of_cons in Hm as [Hmn Hm].
      destruct (Hoth3 m Hm) as [-> ->].
      destruct (Hoth2 m Hmn) as [-> ->].
      apply (Hoth1 m Hmn).
    + right. split; [exact Hfill|]. tauto.
Qed.

Lemma block_turns_decrease (l : Z) :
  block_size <= l ->
  (Z.to_nat (to_size_t (l - block_size) / block_size)
   < Z.to_nat (l / block_size))%nat.
Proof.
  unfold block_size, to_size_t. intros Hl.
  assert (H0 : 0 <= (l - 64) mod 2 ^ 64) by (apply Z.mod_pos_bound; lia).
  assert (H1 : (l - 64) mod 2 ^ 64 <= l - 64) by (apply Z.mod_le; lia).
  assert (H2 : (l - 64) mod 2 ^ 64 / 64 <= (l - 64) / 64)
    by (apply Z.div_le_mono; lia).
  assert (H3 : (l - 64) / 64 = l / 64 - 1).
  { replace (l - 64) with (l + (-1) * 64) by lia.
    rewrite Z.div_add by lia. lia. }
  assert (H4 : 0 <= (l - 64) mod 2 ^ 64 / 64) by (apply Z.div_pos; lia).
  lia.
Qed.

Lemma initial_streams_wf (no : Z) (hashs : list value) (data : list (list byte)) :
  0 <= no < 2 ^ 64 -> streams_wf (initial_streams no hashs data).
Proof. intros Hno. unfold streams_wf. cbn. tauto. Qed.

Section Loop.

Variable host : endianness.
Variable int4 : list (list byte) -> list (list Z) -> list (list Z).
Variable ndebug : bool.

(** A turn of the loop either goes on with one block less in stream 0,
    or it ends in the fault of the build, or it reads behind the
    argument arrays; it never leaves the loop. *)
Lemma batch_turn_cases (s : streams) :
  streams_wf s ->
  (exists s', batch_turn host int4 ndebug s = Returned (s', false) /\
     streams_wf s' /\ (arrays_cover s -> arrays_cover s') /\
     (turns_left s' < turns_left s)%nat) \/
  batch_turn host int4 ndebug s = Stopped (lane_fault ndebug) \/
  (batch_turn host int4 ndebug s = Stopped ReadPastArrays /\ ~ arrays_cover s).
Proof.
  intros Hwf. unfold batch_turn, stream_indices.
  change (fill_streams [0; 1; 2; 3]%nat s)
    with ('(s', brk) ← load_stream 0 s;
          if brk : bool then Returned s'
          else fill_streams [1; 2; 3]%nat (retire_stream 0 s')).
  destruct (load_stream_cases 0 s Hwf)
    as [(s1 & Hload & Hwf1 & Hcov1 & _ & Hlane1)|[Hload Hcov]].
  2:{ right. right. rewrite Hload. split; [reflexivity|exact Hcov]. }
  rewrite Hload. cbn [mbind run_bind].
  destruct (retire_stream_cases 0 s1 Hwf1) as (Hwf2 & Hcov2 & _ & Hlane2).
  destruct (fill_streams_cases [1; 2; 3]%nat (retire_stream 0 s1) Hwf2)
    as [(s3 & Hfill & Hwf3 & Hcov3 & Hoth3)|[Hfill Hcov]].
  2:{ right. right. rewrite Hfill. split; [reflexivity|tauto]. }
  rewrite Hfill. cbn [mbind run_bind].
  pose proof Hwf3 as (Hdone3 & Hno3 & Hb3 & Hl3). rewrite Hdone3.
  assert (Hgo : is_null (blks s3 !! 0%nat) = false ->
    let s' := advance_streams s3 (sha256_int_step host int4 s3) in
    streams_wf s' /\ (arrays_cover s -> arrays_cover s') /\
    (turns_left s' < turns_left s)%nat).
  { intros Hnn. destruct (Hoth3 0%nat) as [Hb0 Hl0].
    { rewrite !not_elem_of_cons. split_and!; try lia. apply not_elem_of_nil. }
    rewrite Hb0 in Hnn.
    pose proof Hwf1 as (_ & _ & _ & Hl1).
    destruct (lookup_lt_is_Some_2 (lengths s1) 0%nat) as [l Hl]; [lia|].
    destruct (Hlane2 l ltac:(lia) Hl Hnn) as [Hge Hsame].
    rewrite Hsame in Hnn, Hb0, Hl0.
    destruct (Hlane1 ltac:(lia) Hnn) as (l' & Hl' & Hturns).
    assert (l' = l) by congruence. subst l'.
    apply is_null_false in Hnn as [b Hb].
    split_and!.
    - unfold streams_wf, advance_streams. cbn [done no blks lengths].
      rewrite !length_fmap. tauto.
    - unfold arrays_cover, advance_streams. cbn [no data]. tauto.
    - unfold turns_left at 1. unfold stream_turns, advance_streams.
      cbn [blks lengths data]. rewrite !list_lookup_fmap, Hb0, Hl0, Hb, Hl.
      cbn [fmap option_fmap option_map default].
      unfold turns_left. rewrite <- Hturns.
      apply block_turns_decrease. exact Hge. }
  destruct ndebug; cbn [forallb].
  - destruct (is_null (blks s3 !! 0%nat)) eqn:Hn0; cbn [negb andb].
    { right. left. reflexivity. }
    destruct (_ && _); [|right; left; reflexivity].
    left. eexists. split; [reflexivity|]. apply Hgo. reflexivity.
  - destruct (stream_ready s3 0) eqn:Hr0; cbn [andb];
      [|right; left; reflexivity].
    destruct (_ && _); [|right; left; reflexivity].
    left. eexists. split; [reflexivity|]. apply Hgo.
    unfold stream_ready in Hr0. apply andb_true_iff in Hr0 as [Hr0 _].
    apply negb_true_iff in Hr0. exact Hr0.
Qed.

(** The loop is never left: [done] stays false. *)
Lemma batch_while_never_returns (fuel : nat) :
  forall s s' : streams,
  streams_wf s -> batch_while host int4 ndebug fuel s <> Returned s'.
Proof.
  induction fuel as [|fuel IH]; intros s s' Hwf;
    pose proof Hwf as (Hdone & _); cbn [batch_while]; rewrite Hdone.
  - discriminate.
  - destruct (batch_turn_cases s Hwf)
      as [(s1 & Hturn & Hwf1 & _)|[Hturn|[Hturn _]]];
      rewrite Hturn; cbn [mbind run_bind]; [apply IH; exact Hwf1| |];
      discriminate.
Qed.

(** Given as many turns as stream 0 has blocks, and one more, the loop
    ends in a fault. *)
Lemma batch_while_stops (fuel : nat) :
  forall s : streams,
  streams_wf s -> (turns_left s < fuel)%nat ->
  batch_while host int4 ndebug fuel s = Stopped (lane_fault ndebug) \/
  (batch_while host int4 ndebug fuel s = Stopped ReadPastArrays /\
   ~ arrays_cover s).
Proof.
  induction fuel as [|fuel IH]; intros s Hwf Hfuel; [lia|].
  pose proof Hwf as (Hdone & _). cbn [batch_while]. rewrite Hdone.
  destruct (batch_turn_cases s Hwf)
    as [(s1 & Hturn & Hwf1 & Hcov1 & Hless)|[Hturn|[Hturn Hcov]]];
    rewrite Hturn; cbn [mbind run_bind].
  - destruct (IH s1 Hwf1 ltac:(lia)) as [H|[H Hcov]]; [left; exact H|].
    right. split; [exact H|tauto].
  - left. reflexivity.
  - right. split; [reflexivity|exact Hcov].
Qed.

(** With the count within the arrays, [BatchAddSHA256To] ends in the
    fault of the build. *)
Lemma BatchAddSHA256To_stops (osol : list byte -> list Z -> list Z)
  (fuel : nat) (no : Z) (hashs : list value) (data : list (list byte)) :
  0 <= no < 2 ^ 64 -> no <= Z.of_nat (length data) ->
  (turns_left (initial_streams no hashs data) < fuel)%nat ->
  BatchAddSHA256To host osol int4 ndebug fuel no hashs data =
  Stopped (lane_fault ndebug).
Proof.
  intros Hno Hcov Hfuel. unfold BatchAddSHA256To.
  destruct (batch_while_stops fuel (initial_streams no hashs data)
              (initial_streams_wf no hashs data Hno) Hfuel) as [H|[_ Hn]].
  - rewrite H. reflexivity.
  - exfalso. apply Hn. exact Hcov.
Qed.

End Loop.

(** C1.  [BatchAddSHA256To] on one message and on four messages of any
    lengths: the call does not return a digest.  Whatever the buffers
    and the hashes, it ends in the failed assertion of line 208 (debug
    build) or hands a null block to [__sha256_int] (NDEBUG), as soon as
    the loop is given the turns stream 0 has blocks, and one more. *)
Theorem BatchAddSHA256To_one_and_four (host : endianness)
  (osol : list byte -> list Z -> list Z)
  (int4 : list (list byte) -> list (list Z) -> list (list Z))
  (ndebug : bool) (k : nat) :
  (forall (h : value) (b : list byte),
     BatchAddSHA256To host osol int4 ndebug (S (whole_blocks b) + k) 1 [h] [b]
     = Stopped (lane_fault ndebug)) /\
  (forall (h1 h2 h3 h4 : value) (b1 b2 b3 b4 : list byte),
     BatchAddSHA256To host osol int4 ndebug (S (whole_blocks b1) + k) 4
       [h1; h2; h3; h4] [b1; b2; b3; b4]
     = Stopped (lane_fault ndebug)).
Proof.
  split; intros; apply BatchAddSHA256To_stops;
    try (cbn [length]; lia);
    unfold turns_left, stream_turns, whole_blocks; cbn; lia.
Qed.

(** C2.  The loop [while(!done)] never stops by [done]: for every count
    [no] that is a [size_t], whatever the arrays, the build and the
    number of turns, it does not reach the statements after the loop,
    so no retired tail is ever finished; it ends, after at most as many
    turns as stream 0 has blocks and one more, in a fault. *)
Theorem batch_loop_never_finishes (host : endianness)
  (osol : list byte -> list Z -> list Z)
  (int4 : list (list byte) -> list (list Z) -> list (list Z))
  (ndebug : bool) (no : Z) (hashs : list value) (data : list (list byte)) :
  0 <= no < 2 ^ 64 ->
  (forall fuel s',
     batch_while host int4 ndebug fuel (initial_streams no hashs data)
     <> Returned s') /\
  (forall fuel r,
     BatchAddSHA256To host osol int4 ndebug fuel no hashs data <> Returned r) /\
  (forall fuel,
     (turns_left (initial_streams no hashs data) < fuel)%nat ->
     exists f,
       batch_while host int4 ndebug fuel (initial_streams no hashs data)
       = Stopped f).
Proof.
  intros Hno. pose proof (initial_streams_wf no hashs data Hno) as Hwf.
  split_and!.
  - intros fuel s'.
    exact (batch_while_never_returns host int4 ndebug fuel _ s' Hwf).
  - intros fuel r. unfold BatchAddSHA256To.
    destruct (batch_while host int4 ndebug fuel (initial_streams no hashs data))
      as [s'| |] eqn:Hrun; cbn [mbind run_bind]; try discriminate.
    exfalso. exact (batch_while_never_returns host int4 ndebug fuel _ _ Hwf Hrun).
  - intros fuel Hfuel.
    destruct (batch_while_stops host int4 ndebug fuel _ Hwf Hfuel) as [H|[H _]];
      eauto.
Qed.

(** The theorem at the batch call of the [SHA256/works] test. *)
Lemma batch_loop_never_finishes_witness :
  0 <= 4 < 2 ^ 64 /\
  (forall fuel s',
     batch_while LittleEndian sha256_int_model false fuel
       (initial_streams 4 test_hashes test_datas) <> Returned s') /\
  (forall fuel r,
     BatchAddSHA256To LittleEndian sha256_compress sha256_int_model false fuel
       4 test_hashes test_datas <> Returned r) /\
  (forall fuel,
     (turns_left (initial_streams 4 test_hashes test_datas) < fuel)%nat ->
     exists f,
       batch_while LittleEndian sha256_int_model false fuel
         (initial_streams 4 test_hashes test_datas) = Stopped f).
Proof.
  split; [lia|].
  apply (batch_loop_never_finishes LittleEndian sha256_compress
           sha256_int_model false 4 test_hashes test_datas).
  lia.
Defined.

(** The batch call of the [SHA256/works] test, run. *)
Lemma batch_test_run :
  BatchAddSHA256To LittleEndian sha256_compress sha256_int_model false 1
    4 test_hashes test_datas = Stopped AssertionFailed /\
  BatchAddSHA256To LittleEndian sha256_compress sha256_int_model true 1
    4 test_hashes test_datas = Stopped NullBlockPointer.
Proof. split; vm_compute; reflexivity. Qed.

End BatchFacts.

(** ** Words over the storage *)

Module WordFacts.

Import FixedWidth.

Lemma length_store_word (e : endianness) (n : nat) (w : Z) :
  length (store_word e n w) = n.
Proof.
  destruct e; cbn [store_word]; rewrite ?length_rev; apply length_le_split.
Qed.

Lemma load_store_word (e : endianness) (n : nat) (w : Z) :
  load_word e (store_word e n w) = w mod 2 ^ (Z.of_nat n * 8).
Proof.
  destruct e; cbn [store_word load_word]; rewrite ?rev_involutive;
    apply le_combine_split.
Qed.

Lemma store_word_mod (e : endianness) (n : nat) (w : Z) :
  store_word e n w = store_word e n (w mod 2 ^ (Z.of_nat n * 8)).
Proof.
  destruct e; cbn [store_word]; rewrite <- le_split_mod; reflexivity.
Qed.

Lemma of_words_cons (e : endianness) (n : nat) (w : Z) (ws : list Z) :
  of_words e n (w :: ws) = store_word e n w ++ of_words e n ws.
Proof. reflexivity. Qed.

Lemma length_of_words (e : endianness) (n : nat) (ws : list Z) :
  length (of_words e n ws) = (n * length ws)%nat.
Proof.
  induction ws as [|w ws IH]; [cbn; lia|].
  rewrite of_words_cons, length_app, length_store_word, IH. cbn [length]. lia.
Qed.

Lemma as_words_of_words (e : endianness) (n : nat) (ws : list Z) :
  as_words e n (length ws) (of_words e n ws) =
  (fun w => w mod 2 ^ (Z.of_nat n * 8)) <$> ws.
Proof.
  induction ws as [|w ws IH]; [reflexivity|].
  cbn [length as_words]. rewrite of_words_cons.
  rewrite take_app_length' by (symmetry; apply length_store_word).
  rewrite drop_app_length' by (symmetry; apply length_store_word).
  rewrite load_store_word, IH. reflexivity.
Qed.

Lemma length_as_words (e : endianness) (n c : nat) (v : value) :
  length (as_words e n c v) = c.
Proof.
  revert v. induction c as [|c IH]; intros v; cbn [as_words length];
    [reflexivity|]. rewrite IH. reflexivity.
Qed.

Lemma asLongLongs_of_words (e : endianness) (ws : list Z) :
  asLongLongs e (of_words e 8 ws) = to_size_t <$> ws.
Proof.
  unfold asLongLongs. rewrite length_of_words.
  rewrite Nat.mul_comm, Nat.div_mul by lia.
  apply as_words_of_words.
Qed.

Lemma of_words_wrap (e : endianness) (ws : list Z) :
  of_words e 8 ws = of_words e 8 (to_size_t <$> ws).
Proof.
  induction ws as [|w ws IH]; [reflexivity|].
  rewrite fmap_cons, !of_words_cons, <- IH.
  rewrite (store_word_mod e 8 w). reflexivity.
Qed.

(** The mask [~(sizeof(word)-1)] leaves a multiple of the word size
    as it is. *)
Lemma land_aligned (k L : Z) :
  0 <= k <= 64 -> 0 <= L < 2 ^ 64 -> L mod 2 ^ k = 0 ->
  Z.land L (to_size_t (Z.lnot (2 ^ k - 1))) = L.
Proof.
  intros Hk HL Hmod. unfold to_size_t.
  rewrite <- Z.land_ones by lia.
  change (2 ^ k - 1) with (Z.pred (2 ^ k)). rewrite <- Z.ones_equiv.
  apply Z.bits_inj'. intros n Hn.
  rewrite !Z.land_spec, Z.lnot_spec by lia.
  destruct (Z.ltb_spec n k) as [Hlt|Hge].
  - rewrite Z.ones_spec_low by lia. cbn.
    rewrite andb_false_r.
    rewrite <- (Z.mod_pow2_bits_low L k n) by lia. rewrite Hmod.
    symmetry. apply Z.bits_0.
  - rewrite (Z.ones_spec_high k) by lia. cbn.
    destruct (Z.ltb_spec n 64) as [Hlt|Hge'].
    + rewrite Z.ones_spec_low by lia. rewrite andb_true_r. reflexivity.
    + rewrite Z.ones_spec_high by lia. rewrite andb_false_r.
      symmetry. destruct (Z.eq_dec L 0) as [->|Hnz]; [apply Z.bits_0|].
      apply Z.bits_above_log2; [lia|].
      assert (Z.log2 L < 64) by (apply Z.log2_lt_pow2; lia). lia.
Qed.

End WordFacts.

(** ** Random fill *)

Module RandomFacts.

Import FixedWidth Random WordFacts.

Section Fill.

Variable host : endianness.
Variable G : generator.

Local Abbreviation W := (Z.to_nat (result_size G)).

(** The loop of lines 52-53 on a buffer with room for [n] words behind
    the fill pointer. *)
Lemma fill_words_spec (n : nat) :
  forall (g : gen_state G) (pre rest : list byte),
  0 < result_size G ->
  (n * W <= length rest)%nat ->
  fill_words host G n g (Z.of_nat (length pre)) (pre ++ rest) =
  Returned (after_draws G n g,
            Z.of_nat (length pre) + Z.of_nat n * result_size G,
            pre ++ of_words host W (draws G n g) ++ drop (n * W) rest).
Proof.
  induction n as [|n IH]; intros g pre rest HW Hroom.
  - cbn [fill_words after_draws draws of_words map concat app Nat.mul drop].
    rewrite Z.add_0_r. reflexivity.
  - assert (HWn : Z.of_nat W = result_size G) by lia.
    cbn [fill_words after_draws draws]. unfold put_word.
    rewrite length_app, Nat2Z.inj_add.
    destruct (Z.leb_spec (Z.of_nat (length pre) + result_size G)
                (Z.of_nat (length pre) + Z.of_nat (length rest))) as [_|Hbad];
      [|cbn [Nat.mul] in Hroom; lia].
    cbn [mbind run_bind].
    rewrite Nat2Z.id, take_app_length.
    replace (Z.to_nat (Z.of_nat (length pre) + result_size G))
      with (length pre + W)%nat by lia.
    rewrite <- drop_drop, drop_app_length.
    replace (Z.of_nat (length pre) + result_size G)
      with (Z.of_nat (length (pre ++ store_word host W (gen_next G g).1)))
      by (rewrite length_app, length_store_word; lia).
    rewrite app_assoc, IH; [|exact HW|rewrite length_drop; cbn [Nat.mul] in Hroom; lia].
    f_equal. f_equal; [f_equal|].
    + rewrite length_app, length_store_word. lia.
    + rewrite of_words_cons, <- !app_assoc, drop_drop.
      replace (W + n * W)%nat with (S n * W)%nat by lia. reflexivity.
Qed.

(** On a buffer of [length] bytes, [length] a multiple of the word
    size, [FillRandom] writes [length / sizeof(word)] draws and does not
    enter the loop of lines 56-59. *)
Lemma FillRandom_aligned (k : Z) (fuel : nat) (rd : Z) (buffer : list byte) :
  0 <= k <= 64 -> result_size G = 2 ^ k ->
  Z.of_nat (length buffer) < 2 ^ 64 ->
  Z.of_nat (length buffer) mod result_size G = 0 ->
  FillRandom host G fuel rd buffer (Z.of_nat (length buffer)) =
  Returned (of_words host W
              (draws G (length buffer / W) (gen_seed G rd))).
Proof.
  intros Hk HWk Hlen Hmod. unfold FillRandom.
  assert (HWpos : 0 < result_size G) by (rewrite HWk; apply Z.pow_pos_nonneg; lia).
  assert (HWn : Z.of_nat W = result_size G) by lia.
  rewrite Z.div_1_r, Z.mul_1_r. cbn [Z.eqb Z.sub Z.add Z.opp Z.pos_sub].
  assert (Hmask : Z.land (Z.of_nat (length buffer))
                    (to_size_t (Z.lnot (result_size G - 1)))
                  = Z.of_nat (length buffer)).
  { rewrite HWk. apply land_aligned; rewrite <- ?HWk; lia. }
  rewrite !Hmask.
  assert (Hno : Z.to_nat (Z.of_nat (length buffer) / result_size G)
                = (length buffer / W)%nat).
  { rewrite <- (Z2Nat.id (result_size G)) at 1 by lia.
    rewrite <- Nat2Z.inj_div. apply Nat2Z.id. }
  rewrite Hno.
  assert (Hexact : (length buffer / W * W)%nat = length buffer).
  { pose proof (Nat.div_mod_eq (length buffer) W) as Hdm.
    assert ((length buffer mod W)%nat = 0%nat).
    { apply Nat2Z.inj. rewrite Nat2Z.inj_mod, HWn. exact Hmod. }
    lia. }
  pose proof (fill_words_spec (length buffer / W) (gen_seed G rd) [] buffer HWpos)
    as Hfill.
  cbn [length app] in Hfill. change (Z.of_nat 0) with 0 in Hfill.
  rewrite Hfill by lia. cbn [mbind run_bind].
  rewrite Hexact, drop_all, app_nil_r.
  rewrite ?Z.mul_1_r.
  replace (Z.of_nat (length buffer) - Z.of_nat (length buffer)) with 0 by lia.
  change (to_size_t 0) with 0.
  destruct fuel; reflexivity.
Qed.

End Fill.

(** The overflow test of [FillQualityRandom]: [abort()] exactly when
    the size in bytes does not fit [size_t]. *)
Lemma overflow_test (no elem_size : Z) :
  0 < elem_size -> 0 <= no < 2 ^ 64 ->
  negb (no =? 0) && negb (no =? to_size_t (no * elem_size) / elem_size) =
  (2 ^ 64 <=? no * elem_size).
Proof.
  intros Hes Hno. unfold to_size_t.
  destruct (Z.leb_spec (2 ^ 64) (no * elem_size)) as [Hov|Hfit].
  - assert (Hlt : (no * elem_size) mod 2 ^ 64 / elem_size < no).
    { apply Z.div_lt_upper_bound; [lia|].
      pose proof (Z.mod_pos_bound (no * elem_size) (2 ^ 64) ltac:(lia)). nia. }
    destruct (Z.eqb_spec no 0) as [->|_]; [lia|].
    destruct (Z.eqb_spec no ((no * elem_size) mod 2 ^ 64 / elem_size)); [lia|].
    reflexivity.
  - rewrite Z.mod_small by nia. rewrite Z.div_mul by lia.
    rewrite Z.eqb_refl. apply andb_false_r.
Qed.

(** C8, as the code has it, where [__LP64__] is defined: [size_t] has
    64 bits and the generator is [mt19937_64], with results of 8 bytes.
    [FillQualityRandom] on [no] elements of 16 or 32 bytes: the size in
    bytes it works with, wrapped or not, is always a whole number of
    generator words; the call ends in [abort()] exactly when the size in
    bytes [no * sizeof(element)] overflows [size_t]; otherwise, on an
    array that has its [no] elements, it returns with the whole storage
    overwritten by the first [size / sizeof(word)] draws of the
    generator, in order. *)
Theorem FillQualityRandom_aborts_or_fills (host : endianness)
  (mt19937_64 mt19937 : generator) (elem_size : Z) (fuel : nat) (rd no : Z) :
  elem_size = 16 \/ elem_size = 32 ->
  result_size mt19937_64 = 8 ->
  0 <= no < 2 ^ 64 ->
  to_size_t (no * elem_size) mod result_size mt19937_64 = 0 /\
  (2 ^ 64 <= no * elem_size ->
   forall ints,
     Random.FillQualityRandom host true mt19937_64 mt19937 elem_size fuel rd
       ints no = Stopped AbortCalled) /\
  (no * elem_size < 2 ^ 64 ->
   forall ints, Z.of_nat (length ints) = no * elem_size ->
     let filled :=
       of_words host (Z.to_nat (result_size mt19937_64))
         (draws mt19937_64 (Z.to_nat (no * elem_size / result_size mt19937_64))
            (gen_seed mt19937_64 rd)) in
     Random.FillQualityRandom host true mt19937_64 mt19937 elem_size fuel rd
       ints no = Returned filled /\
     length filled = length ints).
Proof.
  intros Hes HW Hno. unfold Random.FillQualityRandom, checked_fill.
  set (G := mt19937_64) in *.
  assert (Hwords : forall z, (z * elem_size) mod 8 = 0).
  { intros z. destruct Hes as [-> | ->];
      [ replace (z * 16) with (z * 2 * 8) by lia
      | replace (z * 32) with (z * 4 * 8) by lia ];
      apply Z.mod_mul; lia. }
  rewrite overflow_test by lia.
  split_and!.
  - rewrite HW. unfold to_size_t.
    apply Z.mod_divide; [lia|].
    rewrite Z.mod_eq by lia.
    apply Z.divide_sub_r.
    + apply Z.mod_divide; [lia|apply Hwords].
    + apply Z.divide_mul_l. exists (2 ^ 61). reflexivity.
  - intros Hov ints. destruct (Z.leb_spec (2 ^ 64) (no * elem_size)); [reflexivity|lia].
  - intros Hfit ints Hlen. cbn zeta.
    destruct (Z.leb_spec (2 ^ 64) (no * elem_size)) as [|_]; [lia|].
    unfold to_size_t. rewrite Z.mod_small by lia. rewrite <- Hlen.
    assert (Hmod : Z.of_nat (length ints) mod result_size G = 0).
    { rewrite HW, Hlen. apply Hwords. }
    assert (HWpos : 0 < result_size G) by lia.
    rewrite (FillRandom_aligned host G 3) by (try assumption; lia).
    assert (Hcount : Z.to_nat (Z.of_nat (length ints) / result_size G)
                     = (length ints / Z.to_nat (result_size G))%nat).
    { rewrite <- (Z2Nat.id (result_size G)) at 1 by lia.
      rewrite <- Nat2Z.inj_div. apply Nat2Z.id. }
    rewrite Hcount. split; [reflexivity|].
    rewrite length_of_words.
    assert (Hdraws : forall n g, length (draws G n g) = n).
    { induction n as [|n IH]; intros g; cbn [draws length]; [reflexivity|].
      rewrite IH. reflexivity. }
    rewrite Hdraws.
    pose proof (Nat.div_mod_eq (length ints) (Z.to_nat (result_size G))) as Hdm.
    assert ((length ints mod Z.to_nat (result_size G))%nat = 0%nat).
    { apply Nat2Z.inj. rewrite Nat2Z.inj_mod, Z2Nat.id by lia. exact Hmod. }
    lia.
Qed.

(** The theorem on two elements of 16 bytes with a counting generator
    seeded with 7, and on a count whose size overflows. *)
Lemma FillQualityRandom_aborts_or_fills_witness :
  (16 = 16 \/ 16 = 32) /\
  result_size counter64 = 8 /\
  0 <= 2 < 2 ^ 64 /\ 0 <= 2 ^ 60 < 2 ^ 64 /\
  Random.FillQualityRandom LittleEndian true counter64 counter32 16 0 7
    (replicate 32 Byte.x00) 2
  = Returned (of_words LittleEndian 8 [7; 8; 9; 10]) /\
  Random.FillQualityRandom LittleEndian true counter64 counter32 16 0 7
    (replicate 32 Byte.x00) (2 ^ 60)
  = Stopped AbortCalled.
Proof.
  split; [left; reflexivity|]. split; [reflexivity|].
  split; [lia|]. split; [lia|]. split.
  - apply (FillQualityRandom_aborts_or_fills LittleEndian counter64
             counter32 16 0 7 2 (or_introl eq_refl) eq_refl ltac:(lia));
      [lia|reflexivity].
  - apply (FillQualityRandom_aborts_or_fills LittleEndian counter64
             counter32 16 0 7 (2 ^ 60) (or_introl eq_refl) eq_refl ltac:(lia)).
    lia.
Defined.

(** C8, as stated, fails.  [Int128::FillQualityRandom] on a count of
    [2^60], where [__LP64__] is defined, with a generator of 8-byte
    words: the size in bytes, [2^64], is an exact multiple of the word
    size, and so is the [size_t] it wraps to, 0.  By the claim a buffer
    of such a size is filled; the call ends in [abort()] at line 82,
    whatever the array, before anything is drawn or written. *)
Lemma FillQualityRandom_aborts_on_whole_words :
  (2 ^ 60 * 16) mod result_size counter64 = 0 /\
  to_size_t (2 ^ 60 * 16) mod result_size counter64 = 0 /\
  forall (fuel : nat) (rd : Z) (ints : list byte),
    Int128.FillQualityRandom LittleEndian true counter64 counter32 fuel rd
      ints (2 ^ 60)
    = Stopped AbortCalled.
Proof.
  split; [reflexivity|]. split; [reflexivity|].
  intros fuel rd ints.
  unfold Int128.FillQualityRandom, Random.FillQualityRandom, checked_fill.
  change (to_size_t (2 ^ 60 * 16)) with 0.
  reflexivity.
Qed.

(** C10.  [FillFastRandom] is [FillQualityRandom], for [Int128] and for
    [Int256]: the call and the [return] that follows it are all that is
    run, whatever the generators of the statements behind them. *)
Theorem FillFastRandom_is_FillQualityRandom (host : endianness) (lp64 : bool)
  (mt19937_64 mt19937 ranlux48_base ranlux24_base : generator)
  (fuel : nat) (rd : Z) (ints : list byte) (no : Z) :
  Int128.FillFastRandom host lp64 mt19937_64 mt19937 ranlux48_base
    ranlux24_base fuel rd ints no
  = Int128.FillQualityRandom host lp64 mt19937_64 mt19937 fuel rd ints no /\
  Int256.FillFastRandom host lp64 mt19937_64 mt19937 ranlux48_base
    ranlux24_base fuel rd ints no
  = Int256.FillQualityRandom host lp64 mt19937_64 mt19937 fuel rd ints no.
Proof.
  unfold Int128.FillFastRandom, Int256.FillFastRandom,
    Int128.FillQualityRandom, Int256.FillQualityRandom,
    Random.FillFastRandom, body, seq, call, return_.
  split.
  - destruct (Random.FillQualityRandom host lp64 mt19937_64 mt19937 16 fuel rd
                ints no); reflexivity.
  - destruct (Random.FillQualityRandom host lp64 mt19937_64 mt19937 32 fuel rd
                ints no); reflexivity.
Qed.

End RandomFacts.

(** ** Fast hashes *)

Module FastHashFacts.

Import FixedWidth FastHash WordFacts.

Section WithHashes.

Variable host : endianness.
Variable spooky : list byte -> Z -> Z -> Z * Z.
Variable city : list byte -> Z * Z -> Z * Z.

Lemma asLongLongs_sized_16 (h : value) :
  sized 16 h ->
  asLongLongs host h = [word_at host h 0; word_at host h 1].
Proof.
  unfold sized, word_at, asLongLongs. intros ->.
  change (16 / 8)%nat with 2%nat. reflexivity.
Qed.

Lemma asLongLongs_sized_32 (h : value) :
  sized 32 h ->
  asLongLongs host h =
  [word_at host h 0; word_at host h 1; word_at host h 2; word_at host h 3].
Proof.
  unfold sized, word_at, asLongLongs. intros ->.
  change (32 / 8)%nat with 4%nat. reflexivity.
Qed.

Lemma Hash128_AddFastHashTo_words (h : value) (data : list byte) :
  sized 16 h ->
  Hash128_AddFastHashTo host spooky h data =
  of_words host 8
    (words_of_pair (spooky data (word_at host h 0) (word_at host h 1))).
Proof.
  intros Hh. unfold Hash128_AddFastHashTo.
  rewrite (asLongLongs_sized_16 h Hh). cbn [nth].
  set (r := spooky data _ _).
  change (<[1%nat := r.2]> (<[0%nat := r.1]> [word_at host h 0; word_at host h 1]))
    with [r.1; r.2].
  rewrite of_words_wrap. reflexivity.
Qed.

Lemma Hash256_AddFastHashTo_words (h : value) (data : list byte) :
  sized 32 h ->
  Hash256_AddFastHashTo host spooky city h data =
  of_words host 8
    (words_of_pair (spooky data (word_at host h 0) (word_at host h 1)) ++
     words_of_pair (city data (word_at host h 2, word_at host h 3))).
Proof.
  intros Hh. unfold Hash256_AddFastHashTo.
  rewrite (asLongLongs_sized_32 h Hh). cbn [nth].
  set (r := spooky data _ _). set (c := city data _).
  match goal with
  | |- of_words host 8 ?ws = _ => change ws with [r.1; r.2; c.1; c.2]
  end.
  rewrite of_words_wrap. reflexivity.
Qed.

Lemma words_of_pair_wrapped (r : Z * Z) :
  to_size_t <$> words_of_pair r = words_of_pair r.
Proof.
  unfold words_of_pair, to_size_t. cbn [fmap list_fmap].
  rewrite !Z.mod_mod by lia. reflexivity.
Qed.

Lemma of_words_pair_inj (ws ws' : list Z) :
  to_size_t <$> ws = ws -> to_size_t <$> ws' = ws' ->
  of_words host 8 ws = of_words host 8 ws' -> ws = ws'.
Proof.
  intros Hw Hw' Heq. apply (f_equal (asLongLongs host)) in Heq.
  rewrite !asLongLongs_of_words in Heq. congruence.
Qed.

Lemma sized_Hash128_AddFastHashTo (h : value) (data : list byte) :
  sized 16 h -> sized 16 (Hash128_AddFastHashTo host spooky h data).
Proof.
  intros Hh. rewrite Hash128_AddFastHashTo_words by exact Hh.
  unfold sized. rewrite length_of_words. reflexivity.
Qed.

Lemma sized_Hash256_AddFastHashTo (h : value) (data : list byte) :
  sized 32 h -> sized 32 (Hash256_AddFastHashTo host spooky city h data).
Proof.
  intros Hh. rewrite Hash256_AddFastHashTo_words by exact Hh.
  unfold sized. rewrite length_of_words. reflexivity.
Qed.

Lemma Hash128_AddFastHashTo_asLongLongs (h : value) (data : list byte) :
  sized 16 h ->
  asLongLongs host (Hash128_AddFastHashTo host spooky h data) =
  words_of_pair (spooky data (word_at host h 0) (word_at host h 1)).
Proof.
  intros Hh. rewrite Hash128_AddFastHashTo_words by exact Hh.
  rewrite asLongLongs_of_words. apply words_of_pair_wrapped.
Qed.

Lemma Hash256_AddFastHashTo_asLongLongs (h : value) (data : list byte) :
  sized 32 h ->
  asLongLongs host (Hash256_AddFastHashTo host spooky city h data) =
  words_of_pair (spooky data (word_at host h 0) (word_at host h 1)) ++
  words_of_pair (city data (word_at host h 2, word_at host h 3)).
Proof.
  intros Hh. rewrite Hash256_AddFastHashTo_words by exact Hh.
  rewrite asLongLongs_of_words, fmap_app, !words_of_pair_wrapped. reflexivity.
Qed.

Lemma Hash128_AddFastHashTo_eq_iff (h h' : value) (data : list byte) :
  sized 16 h -> sized 16 h' ->
  Hash128_AddFastHashTo host spooky h data =
  Hash128_AddFastHashTo host spooky h' data <->
  words_of_pair (spooky data (word_at host h 0) (word_at host h 1)) =
  words_of_pair (spooky data (word_at host h' 0) (word_at host h' 1)).
Proof.
  intros Hh Hh'. rewrite !Hash128_AddFastHashTo_words by assumption.
  split; [|congruence].
  apply of_words_pair_inj; apply words_of_pair_wrapped.
Qed.

End WithHashes.

(** C9.  [AddFastHashTo] accumulates.  For a [Hash128] the two words of
    the destination go into SpookyHash as its seeds and the result
    replaces them, so that two destinations end up equal exactly when
    the hashes seeded with their prior contents agree, and a second call
    over the same bytes is seeded with the result of the first; it
    leaves the value of a single call only if that value is a fixed
    point of the seeded hash.  For a [Hash256] the lower two words are
    treated the same way and the upper two are the seed and then the
    result of [CityHash128WithSeed]. *)
Theorem AddFastHashTo_accumulates (host : endianness)
  (spooky : list byte -> Z -> Z -> Z * Z) (city : list byte -> Z * Z -> Z * Z)
  (h h' g : value) (data : list byte) :
  sized 16 h -> sized 16 h' -> sized 32 g ->
  let add128 := Hash128_AddFastHashTo host spooky in
  let add256 := Hash256_AddFastHashTo host spooky city in
  let r := words_of_pair (spooky data (word_at host h 0) (word_at host h 1)) in
  let r' := words_of_pair (spooky data (word_at host h' 0) (word_at host h' 1)) in
  let s := words_of_pair (spooky data (word_at host g 0) (word_at host g 1)) in
  let c := words_of_pair (city data (word_at host g 2, word_at host g 3)) in
  asLongLongs host (add128 h data) = r /\
  (add128 h data = add128 h' data <-> r = r') /\
  asLongLongs host (add128 (add128 h data) data) =
    words_of_pair (spooky data (nth 0 r 0) (nth 1 r 0)) /\
  (add128 (add128 h data) data = add128 h data <->
     words_of_pair (spooky data (nth 0 r 0) (nth 1 r 0)) = r) /\
  asLongLongs host (add256 g data) = s ++ c /\
  asLongLongs host (add256 (add256 g data) data) =
    words_of_pair (spooky data (nth 0 s 0) (nth 1 s 0)) ++
    words_of_pair (city data (nth 0 c 0, nth 1 c 0)).
Proof.
  intros Hh Hh' Hg. cbn zeta.
  pose proof (sized_Hash128_AddFastHashTo host spooky h data Hh) as Hh1.
  pose proof (sized_Hash256_AddFastHashTo host spooky city g data Hg) as Hg1.
  pose proof (Hash128_AddFastHashTo_asLongLongs host spooky h data Hh) as Hw.
  pose proof (Hash256_AddFastHashTo_asLongLongs host spooky city g data Hg) as Hw'.
  split_and!.
  - exact Hw.
  - apply Hash128_AddFastHashTo_eq_iff; assumption.
  - rewrite Hash128_AddFastHashTo_asLongLongs by exact Hh1.
    unfold word_at. rewrite Hw. reflexivity.
  - rewrite (Hash128_AddFastHashTo_eq_iff host spooky _ h data Hh1 Hh).
    unfold word_at at 1 2. rewrite Hw. reflexivity.
  - exact Hw'.
  - rewrite Hash256_AddFastHashTo_asLongLongs by exact Hg1.
    unfold word_at at 1 2 3 4. rewrite Hw'. reflexivity.
Qed.

(** The theorem on null destinations and a one-byte buffer, with two
    hashes that add up their seeds. *)
Lemma AddFastHashTo_accumulates_witness :
  sized 16 (null 16) /\ sized 16 test_hash1 /\ sized 32 (null 32) /\
  asLongLongs LittleEndian
    (Hash128_AddFastHashTo LittleEndian toy_spooky (null 16) [Byte.x01])
  = [2; 7] /\
  asLongLongs LittleEndian
    (Hash128_AddFastHashTo LittleEndian toy_spooky
       (Hash128_AddFastHashTo LittleEndian toy_spooky (null 16) [Byte.x01])
       [Byte.x01])
  = [25; 16] /\
  asLongLongs LittleEndian
    (Hash256_AddFastHashTo LittleEndian toy_spooky toy_city (null 32) [Byte.x01])
  = [2; 7; 5; 12].
Proof.
  split; [reflexivity|]. split; [reflexivity|]. split; [reflexivity|].
  destruct (AddFastHashTo_accumulates LittleEndian toy_spooky toy_city
              (null 16) test_hash1 (null 32) [Byte.x01]
              eq_refl eq_refl eq_refl) as (H1 & _ & H2 & _ & H3 & _).
  split; [exact H1|]. split; [exact H2|exact H3].
Defined.

End FastHashFacts.

(** ** More on [AddSHA256To] *)

Module SHA256More.

Import FixedWidth SHA256 SHA256Facts.

(** The zero bytes that fill up the last block. *)
Local Abbreviation pad_of data := ((64 - length data mod 64) mod 64)%nat.

Lemma zero_padded_blocks_nil : zero_padded_blocks 0 [] = [].
Proof. reflexivity. Qed.

(** Cutting into blocks goes through a concatenation whose first part
    ends on a block boundary. *)
Lemma zero_padded_blocks_app (m : nat) :
  forall a b : list byte,
  length a = (64 * m)%nat ->
  zero_padded_blocks (length (a ++ b)) (a ++ b) =
  zero_padded_blocks (length a) a ++ zero_padded_blocks (length b) b.
Proof.
  induction m as [|m IH]; intros a b Ha.
  - destruct a; [|cbn in Ha; lia]. reflexivity.
  - rewrite (zero_padded_blocks_full (a ++ b)) by (rewrite length_app; lia).
    rewrite (zero_padded_blocks_full a) by lia.
    rewrite take_app_le, drop_app_le by lia.
    rewrite IH by (rewrite length_drop; lia). reflexivity.
Qed.

Lemma zero_padded_blocks_padded (n : nat) :
  forall data : list byte,
  (length data <= n)%nat ->
  zero_padded_blocks (length data) data =
  zero_padded_blocks (length (data ++ replicate (pad_of data) Byte.x00))
    (data ++ replicate (pad_of data) Byte.x00).
Proof.
  induction n as [|n IH]; intros data Hn.
  - destruct data; [reflexivity|cbn in Hn; lia].
  - destruct (Nat.le_gt_cases 64 (length data)) as [Hge|Hlt].
    + rewrite (zero_padded_blocks_full data) by lia.
      rewrite (zero_padded_blocks_full (data ++ _)) by (rewrite length_app; lia).
      rewrite take_app_le, drop_app_le by lia.
      rewrite (IH (drop 64 data)) by (rewrite length_drop; lia).
      rewrite length_drop.
      replace ((length data - 64) mod 64)%nat with (length data mod 64)%nat;
        [reflexivity|].
      replace (length data) with (length data - 64 + 1 * 64)%nat at 1 by lia.
      apply Nat.Div0.mod_add.
    + destruct (Nat.eq_dec (length data) 0%nat) as [H0|H0].
      { destruct data; [reflexivity|discriminate]. }
      rewrite (Nat.mod_small (length data) 64) by lia.
      rewrite (Nat.mod_small (64 - length data)%nat) by lia.
      rewrite zero_padded_blocks_tail by lia.
      rewrite zero_padded_blocks_full
        by (rewrite length_app, length_replicate; lia).
      rewrite take_ge, drop_ge by (rewrite length_app, length_replicate; lia).
      reflexivity.
Qed.

(** X1.  [AddSHA256To] streams: a later call goes on where an earlier one
    that ended on a block boundary stopped. *)
Theorem AddSHA256To_app (host : endianness)
  (osol : list byte -> list Z -> list Z) (h : value) (a b : list byte) :
  (length a mod 64 = 0)%nat ->
  AddSHA256To host osol (AddSHA256To host osol h a) b =
  AddSHA256To host osol h (a ++ b).
Proof.
  intros Ha. unfold AddSHA256To. rewrite !AddSHA256To_with_blocks.
  pose proof (Nat.div_mod_eq (length a) 64) as Hdm.
  rewrite (zero_padded_blocks_app (length a / 64)%nat) by lia.
  rewrite fold_left_app. reflexivity.
Qed.

(** A call on 128 bytes and a call on the fox message, against one
    call on both. *)
Lemma AddSHA256To_app_witness :
  (length (replicate 128 Byte.x01) mod 64 = 0)%nat /\
  AddSHA256To LittleEndian sha256_compress
    (AddSHA256To LittleEndian sha256_compress (null 32) (replicate 128 Byte.x01))
    test_fox =
  AddSHA256To LittleEndian sha256_compress (null 32)
    (replicate 128 Byte.x01 ++ test_fox).
Proof.
  split; [reflexivity|].
  apply (AddSHA256To_app LittleEndian sha256_compress (null 32)
           (replicate 128 Byte.x01) test_fox).
  reflexivity.
Defined.

(** X2.  Zero bytes at the end of a message, up to the end of its last
    block, do not change the hash: the message and the longer one
    collide. *)
Theorem AddSHA256To_trailing_zeros (host : endianness)
  (osol : list byte -> list Z -> list Z) (h : value) (data : list byte)
  (j : nat) :
  AddSHA256To host osol h (data ++ replicate (j `min` pad_of data) Byte.x00) =
  AddSHA256To host osol h data.
Proof.
  unfold AddSHA256To. rewrite !AddSHA256To_with_blocks. f_equal.
  set (i := (j `min` pad_of data)%nat).
  assert (Hi : (i <= pad_of data)%nat) by lia.
  rewrite (zero_padded_blocks_padded (length data) data) by lia.
  rewrite (zero_padded_blocks_padded (length (data ++ replicate i Byte.x00)))
    by lia.
  assert (Hpad : pad_of (data ++ replicate i Byte.x00) = (pad_of data - i)%nat).
  { rewrite length_app, length_replicate.
    pose proof (Nat.div_mod_eq (length data) 64) as Hdm.
    pose proof (Nat.mod_upper_bound (length data) 64 ltac:(lia)) as Hm.
    destruct (Nat.eq_dec (length data mod 64)%nat 0%nat) as [H0|H0].
    - rewrite H0 in *. change ((64 - 0) mod 64)%nat with 0%nat in *.
      assert (i = 0)%nat as -> by lia. rewrite Nat.add_0_r, H0. reflexivity.
    - rewrite (Nat.mod_small (64 - length data mod 64)%nat) in * by lia.
      replace (length data + i)%nat
        with (length data mod 64 + i + length data / 64 * 64)%nat by lia.
      rewrite Nat.Div0.mod_add.
      destruct (Nat.eq_dec (length data mod 64 + i)%nat 64%nat) as [E|E].
      + rewrite E. change (64 mod 64)%nat with 0%nat.
        change ((64 - 0) mod 64)%nat with 0%nat. lia.
      + rewrite (Nat.mod_small (length data mod 64 + i)%nat) by lia.
        rewrite Nat.mod_small by lia. lia. }
  rewrite Hpad, <- app_assoc, <- replicate_add.
  replace (i + (pad_of data - i))%nat with (pad_of data) by lia.
  reflexivity.
Qed.

(** X3.  The compression function is called once per started block. *)
Theorem blocks_compressed_count (data : list byte) :
  length (blocks_compressed data) = ((length data + 63) / 64)%nat.
Proof.
  rewrite blocks_compressed_eq.
  assert (H : forall n (d : list byte), (length d <= n)%nat ->
            length (zero_padded_blocks (length d) d) = ((length d + 63) / 64)%nat).
  { induction n as [|n IH]; intros d Hn.
    - destruct d; [reflexivity|cbn in Hn; lia].
    - destruct (Nat.le_gt_cases 64 (length d)) as [Hge|Hlt].
      + rewrite zero_padded_blocks_full by lia. cbn [length].
        rewrite IH by (rewrite length_drop; lia). rewrite length_drop.
        replace (length d + 63)%nat with (length d - 64 + 63 + 1 * 64)%nat by lia.
        rewrite Nat.div_add by lia. lia.
      + destruct (Nat.eq_dec (length d) 0%nat) as [H0|H0].
        { destruct d; [reflexivity|discriminate]. }
        rewrite zero_padded_blocks_tail by lia. cbn [length].
        apply (Nat.div_unique _ _ _ (length d - 1)%nat); lia. }
  apply (H (length data)). lia.
Qed.

End SHA256More.

(** ** The small generator of the unit tests *)

Module SmallPRNGFacts.

Import SmallPRNG.

Lemma to_uint32_range (z : Z) : 0 <= to_uint32 z < 2 ^ 32.
Proof. unfold to_uint32. apply Z.mod_pos_bound. lia. Qed.

Lemma to_uint32_small (z : Z) : 0 <= z < 2 ^ 32 -> to_uint32 z = z.
Proof. unfold to_uint32. apply Z.mod_small. Qed.

Lemma testbit_high (x n : Z) :
  0 <= x < 2 ^ 32 -> 32 <= n -> Z.testbit x n = false.
Proof.
  intros Hx Hn. destruct (Z.eq_dec x 0) as [->|Hnz]; [apply Z.bits_0|].
  apply Z.bits_above_log2; [lia|].
  assert (Z.log2 x < 32) by (apply Z.log2_lt_pow2; lia). lia.
Qed.

Lemma lxor_range (x y : Z) :
  0 <= x < 2 ^ 32 -> 0 <= y < 2 ^ 32 -> 0 <= Z.lxor x y < 2 ^ 32.
Proof.
  intros Hx Hy.
  assert (H : Z.lxor x y = Z.lxor x y mod 2 ^ 32).
  { apply Z.bits_inj'. intros n Hn.
    destruct (Z.ltb_spec n 32) as [Hlt|Hge].
    - rewrite Z.mod_pow2_bits_low by lia. reflexivity.
    - rewrite Z.mod_pow2_bits_high by lia.
      rewrite Z.lxor_spec, !testbit_high by lia. reflexivity. }
  rewrite H. apply Z.mod_pos_bound. lia.
Qed.

Lemma rot_range (x k : Z) :
  0 <= x < 2 ^ 32 -> 0 < k < 32 -> 0 <= rot x k < 2 ^ 32.
Proof.
  intros Hx Hk. unfold rot.
  assert (Hs : 0 <= Z.shiftr x (32 - k) < 2 ^ 32).
  { rewrite Z.shiftr_div_pow2 by lia. split; [apply Z.div_pos; lia|].
    apply Z.div_lt_upper_bound; [lia|].
    assert (1 <= 2 ^ (32 - k)) by (apply (Z.pow_le_mono_r 2 0); lia). nia. }
  pose proof (to_uint32_range (Z.shiftl x k)) as Hl.
  assert (H : Z.lor (to_uint32 (Z.shiftl x k)) (Z.shiftr x (32 - k)) =
              Z.lor (to_uint32 (Z.shiftl x k)) (Z.shiftr x (32 - k)) mod 2 ^ 32).
  { apply Z.bits_inj'. intros n Hn.
    destruct (Z.ltb_spec n 32) as [Hlt|Hge].
    - rewrite Z.mod_pow2_bits_low by lia. reflexivity.
    - rewrite Z.mod_pow2_bits_high by lia.
      rewrite Z.lor_spec, !testbit_high by lia. reflexivity. }
  rewrite H. apply Z.mod_pos_bound. lia.
Qed.

Lemma ranval_ok (x : ranctx) : ranctx_ok x -> ranctx_ok (ranval x).2.
Proof.
  intros (Ha & Hb & Hc & Hd). unfold ranctx_ok, ranval. cbn.
  split_and!; try apply to_uint32_range.
  - apply lxor_range; [lia|apply rot_range; lia].
  - apply lxor_range; [lia|apply rot_range; lia].
Qed.

Lemma sub_add_uint32 (x y : Z) :
  0 <= x < 2 ^ 32 -> to_uint32 (to_uint32 (x + y) - y) = x.
Proof.
  intros Hx. unfold to_uint32. rewrite Zminus_mod_idemp_l.
  replace (x + y - y) with x by lia. apply Z.mod_small. exact Hx.
Qed.

Lemma add_sub_uint32 (x y : Z) :
  0 <= x < 2 ^ 32 -> to_uint32 (to_uint32 (x - y) + y) = x.
Proof.
  intros Hx. unfold to_uint32. rewrite Zplus_mod_idemp_l.
  replace (x - y + y) with x by lia. apply Z.mod_small. exact Hx.
Qed.

(** X19.  [ranval] loses nothing: it keeps a state of four [u4] such a state
    and [ranval_back] leads from the state it leaves to the state it
    started from. *)
Theorem ranval_invertible (x : ranctx) :
  ranctx_ok x ->
  ranctx_ok (ranval x).2 /\ ranval_back (ranval x).2 = x /\
  (ranval x).1 = rd (ranval x).2.
Proof.
  intros Hok. split; [apply ranval_ok; exact Hok|]. split; [|reflexivity].
  destruct Hok as (Ha & Hb & Hc & Hd). destruct x as [a b c d].
  cbn [ra rb rc rd] in *. unfold ranval, ranval_back. cbn [ra rb rc rd snd].
  set (e := to_uint32 (a - rot b 27)).
  assert (He : 0 <= e < 2 ^ 32) by apply to_uint32_range.
  assert (E1 : to_uint32 (to_uint32 (e + Z.lxor b (rot c 17)) - Z.lxor b (rot c 17)) = e)
    by (apply sub_add_uint32; exact He).
  rewrite E1.
  assert (E2 : to_uint32 (to_uint32 (d + e) - e) = d)
    by (apply sub_add_uint32; exact Hd).
  rewrite E2.
  assert (E3 : to_uint32 (to_uint32 (c + d) - d) = c)
    by (apply sub_add_uint32; exact Hc).
  rewrite E3.
  assert (E4 : Z.lxor (Z.lxor b (rot c 17)) (rot c 17) = b).
  { rewrite Z.lxor_assoc, Z.lxor_nilpotent, Z.lxor_0_r. reflexivity. }
  rewrite E4. unfold e. rewrite add_sub_uint32 by exact Ha. reflexivity.
Qed.

(** The theorem at the state [raninit] starts from in [main]. *)
Lemma ranval_invertible_witness :
  ranctx_ok (mk_ranctx 0xf1ea5eed 0x78adbcff 0x78adbcff 0x78adbcff) /\
  ranval_back (ranval (mk_ranctx 0xf1ea5eed 0x78adbcff 0x78adbcff 0x78adbcff)).2
  = mk_ranctx 0xf1ea5eed 0x78adbcff 0x78adbcff 0x78adbcff.
Proof.
  assert (Hok : ranctx_ok (mk_ranctx 0xf1ea5eed 0x78adbcff 0x78adbcff 0x78adbcff))
    by (unfold ranctx_ok; cbn; lia).
  split; [exact Hok|].
  apply (ranval_invertible _ Hok).
Defined.

Lemma iter_ranval_ok (n : nat) (x : ranctx) :
  ranctx_ok x -> ranctx_ok (Nat.iter n (fun x => (ranval x).2) x).
Proof.
  intros Hok. induction n as [|n IH]; [exact Hok|].
  rewrite Nat.iter_succ. apply ranval_ok. exact IH.
Qed.

Lemma iter_ranval_inj (n : nat) (x y : ranctx) :
  ranctx_ok x -> ranctx_ok y ->
  Nat.iter n (fun x => (ranval x).2) x = Nat.iter n (fun x => (ranval x).2) y ->
  x = y.
Proof.
  intros Hx Hy. induction n as [|n IH]; [trivial|].
  rewrite !Nat.iter_succ. intros H. apply IH.
  apply (f_equal ranval_back) in H.
  destruct (ranval_invertible _ (iter_ranval_ok n x Hx)) as (_ & Ex & _).
  destruct (ranval_invertible _ (iter_ranval_ok n y Hy)) as (_ & Ey & _).
  congruence.
Qed.

(** X20.  Two different seeds never lead [raninit] to the same state. *)
Theorem raninit_injective (seed1 seed2 : Z) :
  0 <= seed1 < 2 ^ 32 -> 0 <= seed2 < 2 ^ 32 ->
  seed1 <> seed2 -> raninit seed1 <> raninit seed2.
Proof.
  intros H1 H2 Hne H. unfold raninit in H.
  apply iter_ranval_inj in H; [congruence| |]; unfold ranctx_ok; cbn; lia.
Qed.

(** The theorem at the seed of [main] and the next one. *)
Lemma raninit_injective_witness :
  0 <= 0x78adbcff < 2 ^ 32 /\ 0 <= 0x78adbd00 < 2 ^ 32 /\
  0x78adbcff <> 0x78adbd00 /\
  raninit 0x78adbcff <> raninit 0x78adbd00.
Proof.
  split; [lia|]. split; [lia|]. split; [lia|].
  apply (raninit_injective 0x78adbcff 0x78adbd00); lia.
Defined.

End SmallPRNGFacts.

(** ** The static type registry *)

Module RegistryFacts.

Import Registry.

Section WithType.

Context {T : Type} `{EqDecision T}.

Lemma registryStorage_live (r : registry T) (l : list T) :
  slot r = Some l ->
  registryStorage r = {| cached := true; slot := Some l |}.
Proof.
  destruct r as [[|] s]; cbn; intros ->; reflexivity.
Qed.

Lemma remove_all_snoc (c : T) (l : list T) :
  remove_all c (l ++ [c]) = remove_all c l.
Proof.
  unfold remove_all. rewrite filter_app.
  rewrite (filter_cons_False _ c) by (intros Hc; apply Hc; reflexivity).
  rewrite filter_nil, app_nil_r. reflexivity.
Qed.

Lemma remove_all_idemp (c : T) (l : list T) :
  remove_all c (remove_all c l) = remove_all c l.
Proof.
  unfold remove_all. induction l as [|x l IH]; [reflexivity|].
  destruct (decide (x = c)) as [->|Hne].
  - rewrite filter_cons_False by (intros Hc; apply Hc; reflexivity). exact IH.
  - rewrite (filter_cons_True _ x l) by exact Hne.
    rewrite filter_cons_True by exact Hne. rewrite IH. reflexivity.
Qed.

(** X9.  Registering a value with a registry that holds something and
    unregistering it again leaves the registry as it was, also when the
    value was registered before. *)
Theorem register_unregister (c : T) (r : registry T) (l : list T) :
  slot r = Some l -> l <> [] ->
  RegisterData c r ≫= UnregisterData c =
  Done {| cached := true; slot := Some l |}.
Proof.
  intros Hslot Hl. unfold RegisterData. rewrite (registryStorage_live r l Hslot).
  cbn [slot cached mbind outcome_bind]. unfold UnregisterData.
  cbn [registryStorage cached slot]. rewrite last_snoc.
  rewrite decide_True by reflexivity. rewrite removelast_last.
  destruct l; [contradiction|reflexivity].
Qed.

(** X10.  What [UnregisterData] takes out: the other values stay, in their
    order; when the value is the last one registered only that one
    entry goes, otherwise every entry equal to it goes. *)
Theorem UnregisterData_removes (c : T) (r r' : registry T) (l : list T) :
  slot r = Some l -> UnregisterData c r = Done r' ->
  remove_all c (default [] (slot r')) = remove_all c l /\
  (last l = Some c -> default [] (slot r') ++ [c] = l) /\
  (last l <> Some c -> default [] (slot r') = remove_all c l /\
                        c ∉ default [] (slot r')).
Proof.
  intros Hslot. unfold UnregisterData. rewrite (registryStorage_live r l Hslot).
  cbn [slot cached]. destruct (last l) as [x|] eqn:Hlast; [|discriminate].
  set (l' := if decide (x = c) then removelast l else remove_all c l).
  assert (Hr : forall r0, (match l' with
                           | [] => Done {| cached := true; slot := None |}
                           | _ :: _ => Done {| cached := true; slot := Some l' |}
                           end) = Done r0 -> default [] (slot r0) = l').
  { intros r0. destruct l'; intros [= <-]; reflexivity. }
  intros Hdone. apply Hr in Hdone. rewrite Hdone. unfold l'. clear Hr Hdone l'.
  apply last_Some in Hlast as [l0 ->].
  destruct (decide (x = c)) as [->|Hne].
  - rewrite removelast_last. split_and!.
    + symmetry. apply remove_all_snoc.
    + reflexivity.
    + intros Hc. contradiction.
  - split_and!.
    + apply remove_all_idemp.
    + intros [= ->]. contradiction.
    + intros _. split; [reflexivity|].
      unfold remove_all. rewrite list_elem_of_filter. tauto.
Qed.

(** X11.  Once [UnregisterData] has emptied the registry the container is
    deleted and stays so: every later call runs into the null
    pointer. *)
Theorem emptied_registry_is_dead (c d : T) (r r' : registry T) :
  UnregisterData c r = Done r' -> slot r' = None ->
  RegisterData d r' = Undefined NullContainer /\
  UnregisterData d r' = Undefined NullContainer /\
  size r' = Undefined NullContainer.
Proof.
  unfold UnregisterData.
  assert (Hc : cached (registryStorage r) = true) by (destruct r as [[|] s]; reflexivity).
  destruct (slot (registryStorage r)) as [l|]; [|discriminate].
  destruct (last l) as [x|]; [|discriminate]. rewrite Hc.
  destruct (if decide (x = c) then removelast l else remove_all c l);
    intros [= <-] Hs; [|discriminate].
  split_and!; reflexivity.
Qed.

Lemma do_call_keeps (k : call) (r r' : registry T) :
  do_call k r = Done r' -> cached r' = true /\ slot r' <> Some [].
Proof.
  assert (Hc : cached (registryStorage r) = true) by (destruct r as [[|] s]; reflexivity).
  destruct k as [c|c]; cbn [do_call]; unfold RegisterData, UnregisterData;
    destruct (slot (registryStorage r)) as [l|]; try discriminate; rewrite ?Hc.
  - intros [= <-]. cbn. split; [reflexivity|]. intros [= Hl].
    destruct l; discriminate.
  - destruct (last l) as [x|]; [|discriminate].
    destruct (if decide (x = c) then removelast l else remove_all c l);
      intros [= <-]; cbn; split; try reflexivity; discriminate.
Qed.

(** X12.  After calls that went through, a registry that exists is never
    empty, so that [UnregisterData] can look at its last entry; on a
    registry never used before it cannot. *)
Theorem registry_never_empty (ks : list call) (r : registry T) :
  ks <> [] -> do_calls ks unused = Done r ->
  cached r = true /\ slot r <> Some [] /\
  forall c : T, UnregisterData c unused = Undefined BackOfEmpty.
Proof.
  intros Hks Hrun.
  assert (Hgen : forall ks (r0 r1 : registry T) k,
            do_calls (k :: ks) r0 = Done r1 ->
            cached r1 = true /\ slot r1 <> Some []).
  { clear. induction ks as [|k' ks IH]; intros r0 r1 k; cbn [do_calls].
    - destruct (do_call k r0) as [r2|] eqn:Hk; [|discriminate].
      cbn [mbind outcome_bind]. intros [= <-]. exact (do_call_keeps k r0 r2 Hk).
    - destruct (do_call k r0) as [r2|] eqn:Hk; [|discriminate].
      cbn [mbind outcome_bind]. apply IH. }
  destruct ks as [|k ks]; [contradiction|].
  destruct (Hgen ks unused r k Hrun) as [H1 H2].
  split_and!; [exact H1|exact H2|reflexivity].
Qed.

End WithType.

(** The calls of the [StaticTypeRegistry/works] test up to its last
    but one. *)
Lemma register_unregister_witness :
  slot (@mk_registry Z true (Some [6; 7])) = Some [6; 7] /\ [6; 7] <> [] /\
  RegisterData 7 (@mk_registry Z true (Some [6; 7])) ≫= UnregisterData 7 =
  Done (@mk_registry Z true (Some [6; 7])).
Proof.
  split; [reflexivity|]. split; [discriminate|].
  apply (register_unregister 7 (@mk_registry Z true (Some [6; 7])) [6; 7]);
    [reflexivity|discriminate].
Defined.

Lemma UnregisterData_removes_witness :
  slot (@mk_registry Z true (Some [5; 6; 5; 7])) = Some [5; 6; 5; 7] /\
  UnregisterData 5 (@mk_registry Z true (Some [5; 6; 5; 7])) =
  Done (@mk_registry Z true (Some [6; 7])) /\
  5 ∉ [6; 7].
Proof.
  assert (Hrun : UnregisterData 5 (@mk_registry Z true (Some [5; 6; 5; 7])) =
                 Done (@mk_registry Z true (Some [6; 7]))) by reflexivity.
  split; [reflexivity|]. split; [exact Hrun|].
  destruct (UnregisterData_removes 5 (@mk_registry Z true (Some [5; 6; 5; 7]))
              (@mk_registry Z true (Some [6; 7])) [5; 6; 5; 7]
              eq_refl Hrun) as (_ & _ & H).
  apply H. discriminate.
Defined.

Lemma emptied_registry_is_dead_witness :
  UnregisterData 6 (@mk_registry Z true (Some [6])) =
  Done (@mk_registry Z true None) /\
  slot (@mk_registry Z true None) = None /\
  RegisterData 5 (@mk_registry Z true None) = Undefined NullContainer.
Proof.
  assert (Hrun : UnregisterData 6 (@mk_registry Z true (Some [6])) =
                 Done (@mk_registry Z true None)) by reflexivity.
  split; [exact Hrun|]. split; [reflexivity|].
  apply (emptied_registry_is_dead 6 5 (@mk_registry Z true (Some [6]))
           (@mk_registry Z true None) Hrun eq_refl).
Defined.

(** The calls of the [StaticTypeRegistry/works] test. *)
Lemma registry_never_empty_witness :
  [Register 5; Register 6; Register 7; Unregister 5; Unregister 7] <> [] /\
  do_calls [Register 5; Register 6; Register 7; Unregister 5; Unregister 7]
    unused = Done (@mk_registry Z true (Some [6])) /\
  slot (@mk_registry Z true (Some [6])) <> Some [].
Proof.
  split; [discriminate|]. split; [reflexivity|].
  apply (registry_never_empty
           [Register 5; Register 6; Register 7; Unregister 5; Unregister 7]
           (@mk_registry Z true (Some [6])));
    [discriminate|reflexivity].
Defined.

End RegistryFacts.

(** ** [Undoer] *)

Module UndoerFacts.

Import Undoer.

Section WithWorld.

Context {World : Type}.

Lemma destroy_dismissed (u : UndoerImpl World) (w : World) :
  _dismissed u = true -> destroy u w = w.
Proof. unfold destroy, int_trigger. intros ->. reflexivity. Qed.

Lemma destroy_all_dismissed (us : list (UndoerImpl World)) (w : World) :
  Forall (fun u => _dismissed u = true) us -> destroy_all us w = w.
Proof.
  unfold destroy_all. induction 1 as [|u us Hu _ IH]; [reflexivity|].
  cbn [fold_left]. rewrite destroy_dismissed by exact Hu. exact IH.
Qed.

Lemma move_chain_spec (n : nat) :
  forall u : UndoerImpl World,
  Forall (fun o => _dismissed o = true) (move_chain n u).1 /\
  forall w, destroy (move_chain n u).2 w = destroy u w.
Proof.
  induction n as [|n IH]; intros u; cbn [move_chain move_construct].
  - split; [constructor|reflexivity].
  - destruct (IH {| undoer := undoer u; _dismissed := _dismissed u |})
      as [Hall Hlast].
    destruct (move_chain n _) as [olds newest]. cbn [fst snd] in *.
    split; [constructor; [reflexivity|exact Hall]|].
    intros w. rewrite Hlast. destruct u; reflexivity.
Qed.

(** X13.  However often an undoer is moved on, and in whatever order the
    objects are destroyed, the world is left as the destruction of the
    first object alone would have left it: the action runs once if that
    object was armed, and not at all if it was dismissed. *)
Theorem moved_undoer_runs_once (n : nat) (u : UndoerImpl World)
  (order : list (UndoerImpl World)) (w : World) :
  order ≡ₚ (move_chain n u).2 :: (move_chain n u).1 ->
  destroy_all order w = destroy u w.
Proof.
  intros Hperm. destruct (move_chain_spec n u) as [Hall Hlast].
  set (newest := (move_chain n u).2) in *.
  set (olds := (move_chain n u).1) in *.
  assert (Hin : newest ∈ order) by (rewrite Hperm; left).
  apply list_elem_of_split in Hin as (l1 & l2 & ->).
  rewrite <- Permutation_middle in Hperm. apply Permutation_cons_inv in Hperm.
  assert (Hd : Forall (fun o => _dismissed o = true) (l1 ++ l2))
    by (rewrite Hperm; exact Hall).
  apply Forall_app in Hd as [Hd1 Hd2].
  unfold destroy_all. rewrite fold_left_app. cbn [fold_left].
  fold (destroy_all l1 w). rewrite (destroy_all_dismissed l1 w Hd1).
  fold (destroy_all l2 (destroy newest w)).
  rewrite destroy_all_dismissed by exact Hd2.
  apply Hlast.
Qed.

(** X14.  [a = std::move(b)] runs the action of [a] at once if [a] is armed;
    what [b] was to do is done once, when the two objects are
    destroyed, in either order. *)
Theorem move_assign_effect (a b : UndoerImpl World) (w : World) :
  (move_assign a b w).2 = destroy a w /\
  destroy (move_assign a b w).1.1
    (destroy (move_assign a b w).1.2 (move_assign a b w).2)
  = destroy b (destroy a w) /\
  destroy (move_assign a b w).1.2
    (destroy (move_assign a b w).1.1 (move_assign a b w).2)
  = destroy b (destroy a w).
Proof.
  destruct a as [[fa|] [|]], b as [[fb|] [|]]; split_and!; reflexivity.
Qed.

(** X15.  What the [Undoer/undoes] test looks at, for every callable:
    making the undoer does not run it; its destruction runs it once,
    unless it is null or the undoer was dismissed; undismissing arms it
    again. *)
Theorem Undoer_scope_exit (c : option (World -> World)) (w : World) :
  (Undoer c w).2 = w /\
  dismissed (Undoer c w).1 = false /\
  destroy (Undoer c w).1 w = from_option (fun f => f w) w c /\
  destroy (dismiss true (Undoer c w).1) w = w /\
  destroy (undismiss true (dismiss true (Undoer c w).1)) w =
  destroy (Undoer c w).1 w.
Proof. destruct c; split_and!; reflexivity. Qed.

End WithWorld.

(** An undoer that counts, moved on twice; the three objects are
    destroyed oldest first. *)
Lemma moved_undoer_runs_once_witness :
  [mk_undoer nat (Some S) true; mk_undoer nat (Some S) true;
   mk_undoer nat (Some S) false]
  ≡ₚ (move_chain 2 (construct (Some S))).2
     :: (move_chain 2 (construct (Some S))).1 /\
  destroy_all [mk_undoer nat (Some S) true; mk_undoer nat (Some S) true;
               mk_undoer nat (Some S) false] 0%nat = 1%nat.
Proof.
  assert (Hperm : [mk_undoer nat (Some S) true; mk_undoer nat (Some S) true;
                   mk_undoer nat (Some S) false]
                  ≡ₚ (move_chain 2 (construct (Some S))).2
                     :: (move_chain 2 (construct (Some S))).1).
  { cbn. symmetry. apply (Permutation_cons_append [_; _] _). }
  split; [exact Hperm|].
  apply (moved_undoer_runs_once 2 (construct (Some S)) _ 0%nat Hperm).
Defined.

End UndoerFacts.

(** ** [FromCodePoint] *)

Module CodePointFacts.

Import CodePoint.

Lemma lower_bound_le (m : map_list) (addr : Z) :
  (lower_bound m addr <= List.length m)%nat.
Proof.
  induction m as [|[k i] m IH]; cbn [lower_bound List.length]; [lia|].
  destruct (k <? addr); lia.
Qed.

Lemma lower_bound_all_below (m : map_list) (addr : Z) :
  Forall (fun e => e.1 < addr) m -> lower_bound m addr = List.length m.
Proof.
  induction 1 as [|[k i] m Hk _ IH]; [reflexivity|].
  cbn [lower_bound List.length fst] in *.
  destruct (Z.ltb_spec k addr); [|lia]. rewrite IH. reflexivity.
Qed.

(** X16.  An entry [FromCodePoint] returns is an entry of the map, and its
    range holds the address. *)
Theorem FromCodePoint_sound (m : map_list) (addr : Z) (i : nat) (k : Z)
  (info : MappedFileInfo) :
  FromCodePoint m addr = Done (Some (i, (k, info))) ->
  m !! i = Some (k, info) /\ startaddr info <= addr < endaddr info.
Proof.
  unfold FromCodePoint.
  destruct (m !! lower_bound m addr) as [[k0 i0]|]; [|discriminate].
  destruct (if addr <? k0
            then match lower_bound m addr with
                 | O => Undefined DecrementBegin
                 | S j => Done j
                 end
            else Done (lower_bound m addr)) as [it|]; [|discriminate].
  cbn [mbind outcome_bind].
  destruct (m !! it) as [[k1 i1]|] eqn:Hit; [|discriminate].
  destruct (Z.leb_spec (startaddr i1) addr); cbn [andb]; [|discriminate].
  destruct (Z.ltb_spec addr (endaddr i1)); [|discriminate].
  intros [= <- <- <-]. split; [exact Hit|lia].
Qed.

(** The map of one mapping, and an address in it that is its key. *)
Lemma FromCodePoint_sound_witness :
  FromCodePoint [(4096, info_at 4096 8192)] 4096 =
  Done (Some (0%nat, (4096, info_at 4096 8192))) /\
  startaddr (info_at 4096 8192) <= 4096 < endaddr (info_at 4096 8192).
Proof.
  assert (Hrun : FromCodePoint [(4096, info_at 4096 8192)] 4096 =
                 Done (Some (0%nat, (4096, info_at 4096 8192)))) by reflexivity.
  split; [exact Hrun|].
  apply (FromCodePoint_sound _ _ _ _ _ Hrun).
Defined.

(** X17.  An address above every key makes [FromCodePoint] look at the end
    of the map, also when the last mapping holds the address; an address
    below the first key makes it step back from the begin. *)
Theorem FromCodePoint_outside (m : map_list) (addr : Z) :
  (Forall (fun e => e.1 < addr) m ->
   FromCodePoint m addr = Undefined DerefEnd) /\
  (forall k info m', m = (k, info) :: m' -> addr < k ->
   FromCodePoint m addr = Undefined DecrementBegin).
Proof.
  split.
  - intros Hall. unfold FromCodePoint.
    rewrite (lower_bound_all_below m addr Hall).
    rewrite lookup_ge_None_2 by lia. reflexivity.
  - intros k info m' -> Hlt. unfold FromCodePoint. cbn [lower_bound].
    destruct (Z.ltb_spec k addr); [lia|]. cbn [lookup list_lookup].
    destruct (Z.ltb_spec addr k); [|lia]. reflexivity.
Qed.

(** The map of one mapping and an address inside it, above its key. *)
Lemma FromCodePoint_outside_witness :
  Forall (fun e => e.1 < 6000) [(4096, info_at 4096 8192)] /\
  startaddr (info_at 4096 8192) <= 6000 < endaddr (info_at 4096 8192) /\
  FromCodePoint [(4096, info_at 4096 8192)] 6000 = Undefined DerefEnd /\
  FromCodePoint [(4096, info_at 4096 8192)] 100 = Undefined DecrementBegin.
Proof.
  assert (Hall : Forall (fun e => e.1 < 6000) [(4096, info_at 4096 8192)])
    by (repeat constructor).
  split; [exact Hall|]. split; [cbn; lia|]. split.
  - apply (FromCodePoint_outside [(4096, info_at 4096 8192)] 6000). exact Hall.
  - apply (FromCodePoint_outside [(4096, info_at 4096 8192)] 100
             ) with (k := 4096) (info := info_at 4096 8192) (m' := []);
      [reflexivity|lia].
Defined.

Lemma lower_bound_after (m : map_list) :
  forall (i : nat) (k : Z) (info : MappedFileInfo) (addr : Z),
  keys_sorted m -> m !! i = Some (k, info) -> k < addr ->
  (forall e, m !! S i = Some e -> addr <= e.1) ->
  lower_bound m addr = S i.
Proof.
  induction m as [|[k0 i0] m IH]; intros i k info addr Hs Hi Hk Hnext;
    [discriminate|].
  cbn [lower_bound]. destruct i as [|i].
  - injection Hi as -> ->. destruct (Z.ltb_spec k addr); [|lia]. f_equal.
    destruct m as [|[k1 i1] m]; [reflexivity|]. cbn [lower_bound].
    specialize (Hnext (k1, i1) eq_refl). cbn [fst] in Hnext.
    destruct (Z.ltb_spec k1 addr); [lia|reflexivity].
  - cbn [lookup list_lookup] in Hi. destruct Hs as [Hhead Hs].
    assert (Hk0 : k0 < addr).
    { destruct m as [|[k1 i1] m]; [discriminate|].
      clear IH Hnext. revert k1 i1 Hhead Hs i Hi.
      induction m as [|[k2 i2] m IHm]; intros k1 i1 Hhead Hs i Hi.
      - destruct i; [|discriminate]. injection Hi as -> ->. lia.
      - destruct i as [|i]; [injection Hi as -> ->; lia|].
        destruct Hs as [H12 Hs]. cbn [lookup list_lookup] in Hi.
        apply (IHm k2 i2 ltac:(lia) Hs i Hi). }
    destruct (Z.ltb_spec k0 addr); [|lia]. f_equal.
    apply (IH i k info addr Hs Hi Hk). exact Hnext.
Qed.

Lemma lower_bound_at (m : map_list) :
  forall (i : nat) (info : MappedFileInfo) (addr : Z),
  keys_sorted m -> m !! i = Some (addr, info) ->
  lower_bound m addr = i.
Proof.
  induction m as [|[k0 i0] m IH]; intros i info addr Hs Hi; [discriminate|].
  cbn [lower_bound]. destruct i as [|i].
  - injection Hi as -> ->. destruct (Z.ltb_spec addr addr); [lia|reflexivity].
  - cbn [lookup list_lookup] in Hi. destruct Hs as [Hhead Hs].
    assert (Hk0 : k0 < addr).
    { destruct m as [|[k1 i1] m]; [discriminate|].
      clear IH. revert k1 i1 Hhead Hs i Hi.
      induction m as [|[k2 i2] m IHm]; intros k1 i1 Hhead Hs i Hi.
      - destruct i; [|discriminate]. injection Hi as -> ->. lia.
      - destruct i as [|i]; [injection Hi as -> ->; lia|].
        destruct Hs as [H12 Hs]. cbn [lookup list_lookup] in Hi.
        apply (IHm k2 i2 ltac:(lia) Hs i Hi). }
    destruct (Z.ltb_spec k0 addr); [|lia]. f_equal.
    apply (IH i info addr Hs Hi).
Qed.

(** X18.  When it finds the mapping: the keys being in order, a mapping that
    holds the address is returned if the address is its key, or if its
    key is below the address and the key of the next mapping above
    it. *)
Theorem FromCodePoint_finds (m : map_list) (addr : Z) (i : nat) (k : Z)
  (info : MappedFileInfo) :
  keys_sorted m -> m !! i = Some (k, info) ->
  startaddr info <= addr < endaddr info ->
  k = addr \/ (k < addr /\ exists e, m !! S i = Some e /\ addr < e.1) ->
  FromCodePoint m addr = Done (Some (i, (k, info))).
Proof.
  intros Hs Hi Hrange [->|[Hk (e & He & Hlt)]]; unfold FromCodePoint.
  - rewrite (lower_bound_at m i info addr Hs Hi), Hi.
    destruct (Z.ltb_spec addr addr); [lia|]. cbn [mbind outcome_bind].
    rewrite Hi.
    destruct (Z.leb_spec (startaddr info) addr); [|lia].
    destruct (Z.ltb_spec addr (endaddr info)); [|lia]. reflexivity.
  - rewrite (lower_bound_after m i k info addr Hs Hi Hk)
      by (intros e' He'; assert (e' = e) by congruence; subst; lia).
    rewrite He. destruct e as [k2 i2]. cbn [fst] in Hlt.
    destruct (Z.ltb_spec addr k2); [|lia]. cbn [mbind outcome_bind].
    rewrite Hi.
    destruct (Z.leb_spec (startaddr info) addr); [|lia].
    destruct (Z.ltb_spec addr (endaddr info)); [|lia]. reflexivity.
Qed.

(** Two mappings and an address inside the first one. *)
Lemma FromCodePoint_finds_witness :
  keys_sorted [(4096, info_at 4096 8192); (16384, info_at 16384 20480)] /\
  startaddr (info_at 4096 8192) <= 6000 < endaddr (info_at 4096 8192) /\
  FromCodePoint [(4096, info_at 4096 8192); (16384, info_at 16384 20480)] 6000
  = Done (Some (0%nat, (4096, info_at 4096 8192))).
Proof.
  assert (Hs : keys_sorted [(4096, info_at 4096 8192);
                            (16384, info_at 16384 20480)])
    by (cbn; lia).
  assert (Hr : startaddr (info_at 4096 8192) <= 6000
               < endaddr (info_at 4096 8192)) by (cbn; lia).
  split; [exact Hs|]. split; [exact Hr|].
  apply (FromCodePoint_finds _ 6000 0%nat 4096 (info_at 4096 8192) Hs eq_refl Hr).
  right. split; [lia|]. exists (16384, info_at 16384 20480).
  split; [reflexivity|cbn; lia].
Defined.

End CodePointFacts.

(** ** [BatchAddFastHashTo] *)

Module FastHashBatchFacts.

Import FixedWidth FastHash FastHashBatch.

Section Batch.

Variable add : value -> list byte -> value.

(** What the loop has done after the indices [order], each taken
    once. *)
Lemma batch_in_order_lookup (order : list nat) (data : list (list byte)) :
  forall hashs : list value,
  NoDup order ->
  Forall (fun n => (n < length hashs)%nat /\ (n < length data)%nat) order ->
  exists hashs',
    batch_in_order add order data hashs = Returned hashs' /\
    length hashs' = length hashs /\
    forall i h, hashs !! i = Some h ->
      hashs' !! i =
      Some (if decide (i ∈ order) then add h (default [] (data !! i)) else h).
Proof.
  induction order as [|n order IH]; intros hashs Hnd Hb.
  - exists hashs. split_and!; try reflexivity.
    intros i h Hi. rewrite decide_False by apply not_elem_of_nil. exact Hi.
  - apply NoDup_cons in Hnd as [Hn Hnd]. apply Forall_cons in Hb as [[Hnh Hndt] Hb].
    cbn [batch_in_order]. unfold batch_body.
    destruct (lookup_lt_is_Some_2 hashs n Hnh) as [h Hh].
    destruct (lookup_lt_is_Some_2 data n Hndt) as [d Hd].
    rewrite Hh, Hd. cbn [mbind run_bind].
    destruct (IH (<[n := add h d]> hashs) Hnd) as (hashs' & Hrun & Hlen & Hlook).
    { rewrite length_insert. exact Hb. }
    exists hashs'. rewrite length_insert in Hlen. split_and!; try assumption.
    intros i hi Hi. destruct (decide (i = n)) as [->|Hne].
    + rewrite (Hlook n (add h d)) by (apply list_lookup_insert_eq; exact Hnh).
      rewrite decide_False by exact Hn.
      rewrite decide_True by left.
      rewrite Hd. assert (hi = h) by congruence. subst. reflexivity.
    + rewrite (Hlook i hi) by (rewrite list_lookup_insert_ne by congruence; exact Hi).
      f_equal. destruct (decide (i ∈ order)) as [Hin|Hnin].
      * rewrite decide_True by (right; exact Hin). reflexivity.
      * rewrite decide_False; [reflexivity|].
        rewrite not_elem_of_cons. split; assumption.
Qed.

(** X7.  [BatchAddFastHashTo] in any order of its indices: every one of the
    first [no] hashes takes in its own buffer, the hashes behind them
    are left alone, and the order in which the indices are taken does
    not matter. *)
Theorem BatchAddFastHashTo_any_order (no : nat) (order : list nat)
  (hashs : list value) (data : list (list byte)) :
  order ≡ₚ seq 0 no ->
  (no <= length hashs)%nat -> (no <= length data)%nat ->
  batch_in_order add order data hashs =
    Returned (zip_with add (take no hashs) (take no data) ++ drop no hashs) /\
  BatchAddFastHashTo add (Z.of_nat no) hashs data =
    batch_in_order add order data hashs.
Proof.
  assert (Hgen : forall order, order ≡ₚ seq 0 no ->
            (no <= length hashs)%nat -> (no <= length data)%nat ->
            batch_in_order add order data hashs =
            Returned (zip_with add (take no hashs) (take no data)
                      ++ drop no hashs)).
  { clear order. intros order Hperm Hh Hd.
    assert (Hin : forall i, i ∈ order <-> (i < no)%nat).
    { intros i. rewrite Hperm, elem_of_seq. lia. }
    destruct (batch_in_order_lookup order data hashs) as (hashs' & Hrun & Hlen & Hlook).
    { rewrite Hperm. apply NoDup_seq. }
    { apply Forall_forall. intros n Hn. apply Hin in Hn. lia. }
    rewrite Hrun. f_equal. apply list_eq. intros i.
    destruct (hashs !! i) as [h|] eqn:Hi.
    - rewrite (Hlook i h Hi).
      destruct (decide (i ∈ order)) as [Hio|Hio].
      + apply Hin in Hio.
        destruct (lookup_lt_is_Some_2 data i ltac:(lia)) as [d Hdi].
        rewrite lookup_app_l
          by (rewrite length_zip_with, !length_take; lia).
        rewrite lookup_zip_with, !lookup_take_lt, Hi, Hdi by lia.
        reflexivity.
      + rewrite Hin in Hio.
        rewrite lookup_app_r
          by (rewrite length_zip_with, !length_take; lia).
        rewrite length_zip_with, !length_take, lookup_drop.
        rewrite <- Hi. f_equal. lia.
    - apply lookup_ge_None in Hi.
      rewrite (lookup_ge_None_2 hashs') by lia.
      symmetry. apply lookup_ge_None_2.
      rewrite length_app, length_zip_with, !length_take, length_drop. lia. }
  intros Hperm Hh Hd. split; [apply Hgen; assumption|].
  unfold BatchAddFastHashTo. rewrite Nat2Z.id.
  rewrite (Hgen order Hperm Hh Hd). apply Hgen; [reflexivity|assumption..].
Qed.

Lemma batch_in_order_app (o1 o2 : list nat) (data : list (list byte))
  (hashs : list value) :
  batch_in_order add (o1 ++ o2) data hashs =
  batch_in_order add o1 data hashs ≫= batch_in_order add o2 data.
Proof.
  revert hashs. induction o1 as [|n o1 IH]; intros hashs; [reflexivity|].
  cbn [app batch_in_order].
  destruct (batch_body add data hashs n) as [hs| |]; cbn [mbind run_bind];
    [apply IH|reflexivity..].
Qed.

(** X8.  A count behind the end of one of the arrays makes the loop read
    past it. *)
Theorem BatchAddFastHashTo_past_arrays (no : Z) (hashs : list value)
  (data : list (list byte)) :
  Z.of_nat (length hashs `min` length data) < no ->
  BatchAddFastHashTo add no hashs data = Stopped ReadPastArrays.
Proof.
  intros Hno. unfold BatchAddFastHashTo.
  set (m := (length hashs `min` length data)%nat) in *.
  replace (Z.to_nat no) with (m + S (Z.to_nat no - S m))%nat by lia.
  rewrite seq_app, batch_in_order_app.
  destruct (batch_in_order_lookup (seq 0 m) data hashs)
    as (hashs' & Hrun & Hlen & _).
  { apply NoDup_seq. }
  { apply Forall_forall. intros n Hn. apply elem_of_seq in Hn. lia. }
  rewrite Hrun. cbn [mbind run_bind seq batch_in_order Nat.add].
  unfold batch_body.
  destruct (hashs' !! m) as [h|] eqn:Hh; [|reflexivity].
  destruct (data !! m) as [d|] eqn:Hd; [|reflexivity].
  apply lookup_lt_Some in Hh, Hd. lia.
Qed.

End Batch.

(** Three [Hash128], of which the first two are hashed, index 1
    first. *)
Lemma BatchAddFastHashTo_any_order_witness :
  [1; 0]%nat ≡ₚ seq 0 2 /\
  batch_in_order (Hash128_AddFastHashTo LittleEndian toy_spooky) [1; 0]%nat
    [[Byte.x01]; [Byte.x02; Byte.x03]] [null 16; null 16; null 16]
  = BatchAddFastHashTo (Hash128_AddFastHashTo LittleEndian toy_spooky) 2
      [null 16; null 16; null 16] [[Byte.x01]; [Byte.x02; Byte.x03]].
Proof.
  assert (Hperm : [1; 0]%nat ≡ₚ seq 0 2) by apply perm_swap.
  split; [exact Hperm|]. symmetry.
  apply (BatchAddFastHashTo_any_order
           (Hash128_AddFastHashTo LittleEndian toy_spooky) 2 [1; 0]%nat
           [null 16; null 16; null 16] [[Byte.x01]; [Byte.x02; Byte.x03]] Hperm);
    cbn; lia.
Defined.

Lemma BatchAddFastHashTo_past_arrays_witness :
  Z.of_nat (length [null 16; null 16] `min` length [[Byte.x01]]) < 2 /\
  BatchAddFastHashTo (Hash128_AddFastHashTo LittleEndian toy_spooky) 2
    [null 16; null 16] [[Byte.x01]] = Stopped ReadPastArrays.
Proof.
  split; [cbn; lia|].
  apply (BatchAddFastHashTo_past_arrays
           (Hash128_AddFastHashTo LittleEndian toy_spooky) 2
           [null 16; null 16] [[Byte.x01]]).
  cbn. lia.
Defined.

End FastHashBatchFacts.

(** ** More on [FillRandom] *)

Module RandomMore.

Import FixedWidth Random WordFacts RandomFacts.

(** The mask [~(sizeof(word)-1)] clears the bits below the word
    size. *)
Lemma land_mask (k L : Z) :
  0 <= k <= 64 -> 0 <= L < 2 ^ 64 ->
  Z.land L (to_size_t (Z.lnot (2 ^ k - 1))) = L - L mod 2 ^ k.
Proof.
  intros Hk HL.
  pose proof (Z.pow_pos_nonneg 2 k ltac:(lia) ltac:(lia)) as Hpos.
  assert (Hrw : L - L mod 2 ^ k = Z.shiftl (Z.shiftr L k) k).
  { rewrite Z.shiftl_mul_pow2, Z.shiftr_div_pow2 by lia.
    rewrite (Z.mod_eq L (2 ^ k)) by lia. lia. }
  rewrite Hrw. unfold to_size_t.
  change (2 ^ k - 1) with (Z.pred (2 ^ k)). rewrite <- Z.ones_equiv.
  apply Z.bits_inj'. intros n Hn.
  rewrite Z.land_spec, Z.shiftl_spec by lia.
  destruct (Z.ltb_spec n k) as [Hlt|Hge].
  - rewrite (Z.testbit_neg_r _ (n - k)) by lia.
    rewrite Z.mod_pow2_bits_low by lia.
    rewrite Z.lnot_spec, Z.ones_spec_low by lia. apply andb_false_r.
  - rewrite Z.shiftr_spec by lia. replace (n - k + k) with n by lia.
    destruct (Z.ltb_spec n 64) as [Hlt|Hge'].
    + rewrite Z.mod_pow2_bits_low by lia.
      rewrite Z.lnot_spec, Z.ones_spec_high by lia. apply andb_true_r.
    + rewrite Z.mod_pow2_bits_high by lia. rewrite andb_false_r.
      symmetry. destruct (Z.eq_dec L 0) as [->|Hnz]; [apply Z.bits_0|].
      apply Z.bits_above_log2; [lia|].
      assert (Z.log2 L < 64) by (apply Z.log2_lt_pow2; lia). lia.
Qed.

Section Fill.

Variable host : endianness.
Variable G : generator.

Local Abbreviation W := (Z.to_nat (result_size G)).

(** The loop of lines 56-59 does not end by itself when the bytes left
    are not a whole number of words. *)
Lemma fill_remaining_never_returns (k : Z) (fuel : nat) :
  forall (remaining : Z) (g : gen_state G) (tofill : Z) (buffer filled : list byte),
  0 <= k <= 64 -> result_size G = 2 ^ k ->
  0 <= remaining < 2 ^ 64 -> remaining mod result_size G <> 0 ->
  fill_remaining host G fuel remaining g tofill buffer <> Returned filled.
Proof.
  induction fuel as [|fuel IH]; intros remaining g tofill buffer filled Hk HW Hr Hm;
    cbn [fill_remaining].
  - destruct (Z.ltb_spec 0 remaining) as [_|Hz]; [discriminate|].
    assert (remaining = 0) by lia. subst. rewrite Z.mod_0_l in Hm; [lia|].
    rewrite HW. apply Z.pow_nonzero; lia.
  - destruct (Z.ltb_spec 0 remaining) as [_|Hz].
    2:{ assert (remaining = 0) by lia. subst. rewrite Z.mod_0_l in Hm; [lia|].
        rewrite HW. apply Z.pow_nonzero; lia. }
    destruct (put_word host G buffer tofill _) as [buffer'| |];
      cbn [mbind run_bind]; try discriminate.
    apply (IH _ _ _ _ _ Hk HW).
    + unfold to_size_t. apply Z.mod_pos_bound. lia.
    + unfold to_size_t. rewrite HW in *.
      assert (Hdiv : (2 ^ k | 2 ^ 64)).
      { exists (2 ^ (64 - k)). rewrite <- Z.pow_add_r by lia. f_equal. lia. }
      pose proof (Z.pow_pos_nonneg 2 k ltac:(lia) ltac:(lia)) as Hpk.
      rewrite Z.mod_mod_divide by exact Hdiv.
      replace (remaining - 2 ^ k) with (remaining + (-1) * 2 ^ k) by lia.
      rewrite Z.mod_add by lia. exact Hm.
Qed.

(** X5.  [FillRandom] on a length that is not a whole number of generator
    words: whatever the buffer and the number of turns, the call does
    not return. *)
Theorem FillRandom_unaligned_never_returns (k : Z) (fuel : nat) (rd : Z)
  (buffer filled : list byte) (length : Z) :
  0 <= k <= 64 -> result_size G = 2 ^ k ->
  0 <= length < 2 ^ 64 -> length mod result_size G <> 0 ->
  FillRandom host G fuel rd buffer length <> Returned filled.
Proof.
  intros Hk HW Hlen Hmod. unfold FillRandom.
  rewrite Z.div_1_r, Z.mul_1_r. cbn [Z.eqb Z.sub Z.add Z.opp Z.pos_sub].
  destruct (fill_words host G _ _ _ buffer) as [[[g tofill] buffer']| |];
    cbn [mbind run_bind]; try discriminate.
  rewrite ?Z.mul_1_r.
  apply (fill_remaining_never_returns k); try assumption.
  - unfold to_size_t. apply Z.mod_pos_bound. lia.
  - rewrite HW in *. rewrite land_mask by lia.
    replace (length - (length - length mod 2 ^ k)) with (length mod 2 ^ k) by lia.
    pose proof (Z.pow_pos_nonneg 2 k ltac:(lia) ltac:(lia)) as Hpk.
    pose proof (Z.mod_pos_bound length (2 ^ k) Hpk) as Hb.
    assert (2 ^ k <= 2 ^ 64) by (apply Z.pow_le_mono_r; lia).
    unfold to_size_t. rewrite (Z.mod_small (length mod 2 ^ k)) by lia.
    rewrite Z.mod_mod by lia. exact Hmod.
Qed.

(** X6.  [FillRandom] on a whole number of words, in a buffer that has
    them: the first [length] bytes are the draws of the generator, in
    order, and the bytes behind them are left alone; with length 0
    nothing is drawn and nothing written. *)
Theorem FillRandom_fills_prefix (k : Z) (fuel : nat) (rd : Z)
  (buffer : list byte) (len : nat) :
  0 <= k <= 64 -> result_size G = 2 ^ k ->
  Z.of_nat len < 2 ^ 64 -> Z.of_nat len mod result_size G = 0 ->
  (len <= length buffer)%nat ->
  FillRandom host G fuel rd buffer (Z.of_nat len) =
  Returned (of_words host W (draws G (len / W) (gen_seed G rd))
            ++ drop len buffer) /\
  length (of_words host W (draws G (len / W) (gen_seed G rd))) = len.
Proof.
  intros Hk HWk Hlen Hmod Hroom.
  assert (HWpos : 0 < result_size G) by (rewrite HWk; apply Z.pow_pos_nonneg; lia).
  assert (HWn : Z.of_nat W = result_size G) by lia.
  assert (Hexact : (len / W * W)%nat = len).
  { pose proof (Nat.div_mod_eq len W) as Hdm.
    assert ((len mod W)%nat = 0%nat).
    { apply Nat2Z.inj. rewrite Nat2Z.inj_mod, HWn. exact Hmod. }
    lia. }
  assert (Hdraws : forall n g, length (draws G n g) = n).
  { induction n as [|n IH]; intros g; cbn [draws length]; [reflexivity|].
    rewrite IH. reflexivity. }
  split; [|rewrite length_of_words, Hdraws; lia].
  unfold FillRandom.
  rewrite Z.div_1_r, Z.mul_1_r. cbn [Z.eqb Z.sub Z.add Z.opp Z.pos_sub].
  assert (Hmask : Z.land (Z.of_nat len)
                    (to_size_t (Z.lnot (result_size G - 1))) = Z.of_nat len).
  { rewrite HWk. apply land_aligned; rewrite <- ?HWk; lia. }
  rewrite !Hmask.
  assert (Hno : Z.to_nat (Z.of_nat len / result_size G) = (len / W)%nat).
  { rewrite <- (Z2Nat.id (result_size G)) at 1 by lia.
    rewrite <- Nat2Z.inj_div. apply Nat2Z.id. }
  rewrite Hno.
  pose proof (fill_words_spec host G (len / W) (gen_seed G rd) [] buffer HWpos)
    as Hfill.
  cbn [length app] in Hfill. change (Z.of_nat 0) with 0 in Hfill.
  rewrite Hfill by lia. cbn [mbind run_bind].
  rewrite Hexact, ?Z.mul_1_r.
  replace (Z.of_nat len - Z.of_nat len) with 0 by lia.
  change (to_size_t 0) with 0.
  destruct fuel; reflexivity.
Qed.

End Fill.

(** Twelve bytes in a buffer of sixteen, words of eight bytes. *)
Lemma FillRandom_unaligned_never_returns_witness :
  0 <= 3 <= 64 /\ result_size counter64 = 2 ^ 3 /\ 0 <= 12 < 2 ^ 64 /\
  12 mod result_size counter64 <> 0 /\
  FillRandom LittleEndian counter64 5 0 (replicate 16 Byte.x00) 12
  <> Returned (replicate 16 Byte.x00).
Proof.
  split; [lia|]. split; [reflexivity|]. split; [lia|].
  split; [vm_compute; discriminate|].
  apply (FillRandom_unaligned_never_returns LittleEndian counter64 3 5 0
           (replicate 16 Byte.x00) (replicate 16 Byte.x00) 12);
    [lia|reflexivity|lia|vm_compute; discriminate].
Defined.

(** Eight bytes filled in a buffer of twelve. *)
Lemma FillRandom_fills_prefix_witness :
  0 <= 3 <= 64 /\ result_size counter64 = 2 ^ 3 /\
  Z.of_nat 8 < 2 ^ 64 /\ Z.of_nat 8 mod result_size counter64 = 0 /\
  (8 <= length (replicate 12 Byte.xff))%nat /\
  FillRandom LittleEndian counter64 0 258 (replicate 12 Byte.xff) (Z.of_nat 8)
  = Returned (of_words LittleEndian 8 [258] ++ replicate 4 Byte.xff).
Proof.
  split; [lia|]. split; [reflexivity|]. split; [cbn; lia|].
  split; [reflexivity|]. split; [cbn; lia|].
  apply (FillRandom_fills_prefix LittleEndian counter64 3 0 258
           (replicate 12 Byte.xff) 8);
    [lia|reflexivity|cbn; lia|reflexivity|cbn; lia].
Defined.

End RandomMore.

(** ** The turns of the loop of [BatchAddSHA256To] before it stops *)

Module SHA256TurnsFacts.

Import FixedWidth SHA256 SHA256Facts SHA256More SHA256Turns.

Lemma load_stream_loaded (n : nat) (s : streams) :
  is_null (blks s !! n) = false -> load_stream n s = Returned (s, false).
Proof. unfold load_stream. intros ->. reflexivity. Qed.

Lemma load_stream_takes (n : nat) (s : streams) (d : list byte)
  (rest : list (list byte)) :
  is_null (blks s !! n) = true -> 0 < no s < 2 ^ 64 -> data s = d :: rest ->
  load_stream n s =
  Returned ({| blks := <[n := Some d]> (blks s);
               lengths := <[n := Z.of_nat (length d)]> (lengths s);
               out := <[n := Some (hashs_next s)]> (out s);
               tobefinished := tobefinished s;
               done := done s;
               no := no s - 1;
               data := rest;
               hashs_next := S (hashs_next s);
               hashs_mem := hashs_mem s |}, false).
Proof.
  intros Hnull Hno Hdata. unfold load_stream. rewrite Hnull, Hdata.
  destruct (Z.eqb_spec (no s) 0) as [|_]; [lia|]. cbn [andb negb].
  destruct (BatchFacts.size_t_decrement (no s)) as [Hdec Hmax]; [lia..|].
  rewrite Hmax, Hdec. reflexivity.
Qed.

Lemma retire_stream_ready (n : nat) (s : streams) :
  stream_ready s n = true -> retire_stream n s = s.
Proof.
  unfold stream_ready, retire_stream. intros H.
  apply andb_true_iff in H as [Hb Hl]. apply negb_true_iff in Hb.
  apply BatchFacts.is_null_false in Hb as [b ->].
  destruct (lengths s !! n) as [l|]; [|discriminate].
  apply Z.leb_le in Hl. destruct (Z.ltb_spec l block_size); [lia|reflexivity].
Qed.

Lemma fill_streams_ready (ns : list nat) (s : streams) :
  Forall (fun n => stream_ready s n = true) ns ->
  fill_streams ns s = Returned s.
Proof.
  induction 1 as [|n ns Hn _ IH]; [reflexivity|].
  cbn [fill_streams]. rewrite load_stream_loaded.
  - cbn [mbind run_bind]. rewrite retire_stream_ready by exact Hn. exact IH.
  - unfold stream_ready in Hn. apply andb_true_iff in Hn as [Hn _].
    apply negb_true_iff in Hn. exact Hn.
Qed.

Section Turns.

Variable host : endianness.
Variable osol : list byte -> list Z -> list Z.
Variable int4 : list (list byte) -> list (list Z) -> list (list Z).
Variable ndebug : bool.

(** [__sha256_int] does to each of its four streams what
    [__sha256_osol] does to one. *)
Hypothesis int4_lanes : forall blocks states,
  int4 blocks states = zip_with osol blocks states.

Variables b0 b1 b2 b3 : list byte.

Local Abbreviation fits j :=
  (Forall (fun b : list byte =>
             64 * Z.of_nat j <= Z.of_nat (length b) < 2 ^ 64) [b0; b1; b2; b3]).

(** One more block of each message folded into its hash. *)
Local Abbreviation next_mem j mem :=
  (zip_with (fun (m : value) (b : list byte) =>
               osol_into host osol (take 64 (drop (64 * j) b)) m)
     mem [b0; b1; b2; b3]).

Lemma streams_after_ready (j : nat) (mem : list value) :
  fits (S j) ->
  Forall (fun n => stream_ready (streams_after j mem b0 b1 b2 b3) n = true)
    stream_indices.
Proof.
  intros Hfit. rewrite !Forall_cons in Hfit.
  destruct Hfit as (H0 & H1 & H2 & H3 & _).
  unfold stream_indices, stream_ready, streams_after, block_size.
  repeat constructor; cbn; apply Z.leb_le; lia.
Qed.

(** A turn on four streams that have a block each: every hash takes
    in the block of its own stream, and every stream moves on. *)
Lemma batch_turn_streams_after (j : nat) (m0 m1 m2 m3 : value) :
  fits (S j) ->
  batch_turn host int4 ndebug (streams_after j [m0; m1; m2; m3] b0 b1 b2 b3) =
  Returned (streams_after (S j) (next_mem j [m0; m1; m2; m3]) b0 b1 b2 b3, false).
Proof.
  intros Hfit. pose proof (streams_after_ready j [m0; m1; m2; m3] Hfit) as Hready.
  unfold batch_turn. rewrite (fill_streams_ready _ _ Hready).
  cbn [mbind run_bind].
  assert (Hall : forallb (stream_ready (streams_after j [m0; m1; m2; m3] b0 b1 b2 b3))
                   stream_indices = true).
  { apply forallb_forall. intros n Hn. rewrite Forall_forall in Hready.
    apply Hready. apply list_elem_of_In. exact Hn. }
  assert (Hnn : forallb (fun n => negb (is_null
                   (blks (streams_after j [m0; m1; m2; m3] b0 b1 b2 b3) !! n)))
                  stream_indices = true) by reflexivity.
  change (done (streams_after j [m0; m1; m2; m3] b0 b1 b2 b3)) with false.
  cbv iota. rewrite Hall, Hnn.
  assert (Hstate : advance_streams (streams_after j [m0; m1; m2; m3] b0 b1 b2 b3)
             (sha256_int_step host int4 (streams_after j [m0; m1; m2; m3] b0 b1 b2 b3))
           = streams_after (S j) (next_mem j [m0; m1; m2; m3]) b0 b1 b2 b3).
  { rewrite !Forall_cons in Hfit. destruct Hfit as (H0 & H1 & H2 & H3 & _).
    unfold advance_streams, sha256_int_step, streams_after.
    rewrite int4_lanes. cbn -[Z.mul Z.of_nat to_size_t Z.sub Nat.mul drop take].
    change (Z.to_nat block_size) with 64%nat.
    rewrite !drop_drop.
    replace (64 * j + 64)%nat with (64 * S j)%nat by lia.
    unfold to_size_t, block_size. rewrite !Z.mod_small by lia.
    replace (64 * Z.of_nat (S j)) with (64 * Z.of_nat j + 64) by lia.
    rewrite !Z.sub_add_distr. reflexivity. }
  rewrite Hstate. destruct ndebug; reflexivity.
Qed.

Lemma AddSHA256To_one_block (h : value) (blk : list byte) :
  length blk = 64%nat -> AddSHA256To host osol h blk = osol_into host osol blk h.
Proof.
  intros Hlen. unfold AddSHA256To. rewrite AddSHA256To_with_blocks.
  rewrite zero_padded_blocks_full by lia.
  rewrite take_ge, drop_ge by lia. reflexivity.
Qed.

Lemma AddSHA256To_next_block (h : value) (b : list byte) (j : nat) :
  (64 * S j <= length b)%nat ->
  osol_into host osol (take 64 (drop (64 * j) b))
    (AddSHA256To host osol h (take (64 * j) b)) =
  AddSHA256To host osol h (take (64 * S j) b).
Proof.
  intros Hlen.
  replace (64 * S j)%nat with (64 * j + 64)%nat by lia.
  rewrite <- take_take_drop.
  rewrite <- AddSHA256To_app
    by (rewrite length_take_le by lia; rewrite Nat.mul_comm; apply Nat.Div0.mod_mul).
  symmetry. apply AddSHA256To_one_block.
  rewrite length_take_le; [reflexivity|]. rewrite length_drop. lia.
Qed.

Variables h0 h1 h2 h3 : value.

(** The hashes once every message has given its first [j] blocks
    to [AddSHA256To]. *)
Local Abbreviation mem_after j :=
  ((fun (h : value) (b : list byte) => AddSHA256To host osol h (take (64 * j) b))
     h0 b0 ::
   (fun (h : value) (b : list byte) => AddSHA256To host osol h (take (64 * j) b))
     h1 b1 ::
   (fun (h : value) (b : list byte) => AddSHA256To host osol h (take (64 * j) b))
     h2 b2 ::
   (fun (h : value) (b : list byte) => AddSHA256To host osol h (take (64 * j) b))
     h3 b3 :: []).

Lemma fits_le (j k : nat) : (j <= k)%nat -> fits k -> fits j.
Proof.
  intros Hjk Hk. eapply Forall_impl; [exact Hk|].
  intros b Hb. cbv beta in *. lia.
Qed.

Lemma batch_turns_streams_after (k : nat) :
  forall j : nat,
  fits (j + k) ->
  batch_turns host int4 ndebug k (streams_after j (mem_after j) b0 b1 b2 b3) =
  Returned (streams_after (j + k) (mem_after (j + k)) b0 b1 b2 b3).
Proof.
  induction k as [|k IH]; intros j Hfit.
  - rewrite Nat.add_0_r. reflexivity.
  - cbn [batch_turns].
    rewrite batch_turn_streams_after by (apply (fits_le _ (j + S k)); [lia|exact Hfit]).
    cbn [mbind run_bind].
    assert (Hmem : next_mem j (mem_after j) = mem_after (S j)).
    { pose proof (fits_le (S j) (j + S k) ltac:(lia) Hfit) as Hf.
      rewrite !Forall_cons in Hf. destruct Hf as (H0 & H1 & H2 & H3 & _).
      cbn [zip_with]. cbv beta.
      rewrite !AddSHA256To_next_block by lia. reflexivity. }
    rewrite Hmem. replace (j + S k)%nat with (S j + k)%nat in * by lia.
    apply IH. exact Hfit.
Qed.

Lemma first_fill :
  fits 1 ->
  fill_streams stream_indices
    (initial_streams 4 [h0; h1; h2; h3] [b0; b1; b2; b3]) =
  Returned (streams_after 0 [h0; h1; h2; h3] b0 b1 b2 b3).
Proof.
  intros Hfit. rewrite !Forall_cons in Hfit.
  destruct Hfit as (H0 & H1 & H2 & H3 & _).
  unfold stream_indices, initial_streams.
  cbn [fill_streams].
  rewrite (load_stream_takes 0 _ b0 [b1; b2; b3]) by (cbn; first [reflexivity|lia]).
  cbn [mbind run_bind].
  rewrite retire_stream_ready
    by (unfold stream_ready, block_size; cbn; apply Z.leb_le; lia).
  rewrite (load_stream_takes 1 _ b1 [b2; b3]) by (cbn; first [reflexivity|lia]).
  cbn [mbind run_bind].
  rewrite retire_stream_ready
    by (unfold stream_ready, block_size; cbn; apply Z.leb_le; lia).
  rewrite (load_stream_takes 2 _ b2 [b3]) by (cbn; first [reflexivity|lia]).
  cbn [mbind run_bind].
  rewrite retire_stream_ready
    by (unfold stream_ready, block_size; cbn; apply Z.leb_le; lia).
  rewrite (load_stream_takes 3 _ b3 []) by (cbn; first [reflexivity|lia]).
  cbn [mbind run_bind].
  rewrite retire_stream_ready
    by (unfold stream_ready, block_size; cbn; apply Z.leb_le; lia).
  unfold streams_after. cbn -[Z.of_nat Z.sub Z.mul].
  rewrite !Z.sub_0_r. reflexivity.
Qed.

End Turns.

(** X4.  The interleaving is right as far as the loop gets.  Four messages
    that have [k] whole blocks each, and [__sha256_int] doing to each
    stream what [__sha256_osol] does to one: after [k] turns of the loop
    every hash is what [AddSHA256To] gives on the first [k] blocks of
    its own message. *)
Theorem batch_turns_interleave (host : endianness)
  (osol : list byte -> list Z -> list Z)
  (int4 : list (list byte) -> list (list Z) -> list (list Z))
  (ndebug : bool) (b0 b1 b2 b3 : list byte) (h0 h1 h2 h3 : value) (k : nat) :
  (forall blocks states, int4 blocks states = zip_with osol blocks states) ->
  Forall (fun b : list byte => 64 * Z.of_nat k <= Z.of_nat (length b) < 2 ^ 64)
    [b0; b1; b2; b3] ->
  exists s,
    batch_turns host int4 ndebug k
      (initial_streams 4 [h0; h1; h2; h3] [b0; b1; b2; b3]) = Returned s /\
    hashs_mem s =
    zip_with (fun h b => AddSHA256To host osol h (take (64 * k) b))
      [h0; h1; h2; h3] [b0; b1; b2; b3].
Proof.
  intros Hint Hfit. destruct k as [|k].
  - eexists. split; [reflexivity|]. reflexivity.
  - pose proof (fits_le b0 b1 b2 b3 1 (S k) ltac:(lia) Hfit) as Hfit1.
    exists (streams_after (S k)
              (zip_with (fun h b => AddSHA256To host osol h (take (64 * S k) b))
                 [h0; h1; h2; h3] [b0; b1; b2; b3]) b0 b1 b2 b3).
    split; [|reflexivity].
    pose proof (batch_turns_streams_after host osol int4 ndebug Hint
                  b0 b1 b2 b3 h0 h1 h2 h3 (S k) 0 Hfit) as Hrun.
    cbn [batch_turns] in Hrun |- *.
    unfold batch_turn in Hrun |- *.
    rewrite (first_fill b0 b1 b2 b3 h0 h1 h2 h3 Hfit1).
    rewrite fill_streams_ready in Hrun
      by (apply streams_after_ready; exact Hfit1).
    exact Hrun.
Qed.

(** Four messages of 130 to 200 bytes and two turns, with the
    compression function of FIPS 180-4. *)
Lemma batch_turns_interleave_witness :
  (forall blocks states,
     sha256_int_model blocks states = zip_with sha256_compress blocks states) /\
  Forall (fun b : list byte =>
            64 * Z.of_nat 2 <= Z.of_nat (length b) < 2 ^ 64)
    [replicate 130 Byte.x01; replicate 128 Byte.x02;
     replicate 200 Byte.x03; replicate 191 Byte.x04] /\
  exists s,
    batch_turns LittleEndian sha256_int_model false 2
      (initial_streams 4 [null 32; null 32; null 32; null 32]
         [replicate 130 Byte.x01; replicate 128 Byte.x02;
          replicate 200 Byte.x03; replicate 191 Byte.x04]) = Returned s /\
    hashs_mem s =
    zip_with (fun h b => AddSHA256To LittleEndian sha256_compress h
                           (take (64 * 2) b))
      [null 32; null 32; null 32; null 32]
      [replicate 130 Byte.x01; replicate 128 Byte.x02;
       replicate 200 Byte.x03; replicate 191 Byte.x04].
Proof.
  assert (Hint : forall blocks states,
            sha256_int_model blocks states = zip_with sha256_compress blocks states)
    by reflexivity.
  assert (Hfit : Forall (fun b : list byte =>
                           64 * Z.of_nat 2 <= Z.of_nat (length b) < 2 ^ 64)
                   [replicate 130 Byte.x01; replicate 128 Byte.x02;
                    replicate 200 Byte.x03; replicate 191 Byte.x04]).
  { repeat constructor; rewrite length_replicate; lia. }
  split; [exact Hint|]. split; [exact Hfit|].
  apply (batch_turns_interleave LittleEndian sha256_compress sha256_int_model
           false _ _ _ _ (null 32) (null 32) (null 32) (null 32) 2 Hint Hfit).
Defined.

End SHA256TurnsFacts.
